(** * ai-news-app: the application controller and the feed fetcher

    A shallow embedding of [src/App.tsx] (the [App] component: settings
    persistence, summary and audio generation, error display) and of the
    [ArticleInput] component (feed fetching and the "generate summary"
    button), with the properties the specification states about them.

    JavaScript strings are sequences of UTF-16 code units; React state is a
    record; an [async] handler is split at its [await] into the part that
    runs on the click and the part that runs when the remote call settles. *)

From Stdlib Require Import NArith ZArith List Ascii String Lia Bool Decimal.
From stdpp Require Import base list gmap.

Set Warnings "-register-all".

Local Open Scope N_scope.
Local Open Scope list_scope.

(** ** JavaScript strings *)

Module JS.

(** A string value: its UTF-16 code units. *)
Abbreviation jsstring := (list N).

(** Decoding of the UTF-8 bytes of a literal into code units, so that the
    literals of the source can be written as they are. *)
Fixpoint utf16_of_bytes (bs : list N) : jsstring :=
  match bs with
  | [] => []
  | b0 :: r0 =>
    if b0 <? 0x80 then b0 :: utf16_of_bytes r0
    else if b0 <? 0xE0 then
      match r0 with
      | b1 :: r1 => ((b0 mod 32) * 64 + b1 mod 64) :: utf16_of_bytes r1
      | _ => []
      end
    else if b0 <? 0xF0 then
      match r0 with
      | b1 :: b2 :: r2 =>
        ((b0 mod 16) * 4096 + (b1 mod 64) * 64 + b2 mod 64) :: utf16_of_bytes r2
      | _ => []
      end
    else
      match r0 with
      | b1 :: b2 :: b3 :: r3 =>
        let cp := (b0 mod 8) * 262144 + (b1 mod 64) * 4096
                  + (b2 mod 64) * 64 + b3 mod 64 in
        (0xD800 + (cp - 0x10000) / 1024) :: (0xDC00 + (cp - 0x10000) mod 1024)
          :: utf16_of_bytes r3
      | _ => []
      end
  end.

Definition js (s : string) : jsstring :=
  utf16_of_bytes (map N_of_ascii (list_ascii_of_string s)).
Arguments js : simpl never.

(** Line feed, written [\n] in the source. *)
Definition LF : N := 10.

(** ToBoolean on a string: the empty string is the only falsy one. *)
Definition truthy (s : jsstring) : bool :=
  match s with [] => false | _ => true end.

(** [a === b] on strings. *)
Fixpoint str_eqb (a b : jsstring) : bool :=
  match a, b with
  | [], [] => true
  | x :: a', y :: b' => (x =? y) && str_eqb a' b'
  | _, _ => false
  end.

(** [a || b] on strings. *)
Definition or_else (a b : jsstring) : jsstring :=
  if truthy a then a else b.

(** WhiteSpace and LineTerminator code units, the ones [trim] strips. *)
Definition is_white (c : N) : bool :=
  (c =? 0x09) || (c =? 0x0A) || (c =? 0x0B) || (c =? 0x0C) || (c =? 0x0D)
  || (c =? 0x20) || (c =? 0xA0) || (c =? 0x1680)
  || ((0x2000 <=? c) && (c <=? 0x200A))
  || (c =? 0x2028) || (c =? 0x2029) || (c =? 0x202F) || (c =? 0x205F)
  || (c =? 0x3000) || (c =? 0xFEFF).

Fixpoint trimStart (s : jsstring) : jsstring :=
  match s with
  | c :: r => if is_white c then trimStart r else s
  | [] => []
  end.

Definition trimEnd (s : jsstring) : jsstring := rev (trimStart (rev s)).

(** [String.prototype.trim]. *)
Definition trim (s : jsstring) : jsstring := trimEnd (trimStart s).

Fixpoint startsWith (s pat : jsstring) {struct pat} : bool :=
  match pat with
  | [] => true
  | p :: pat' =>
    match s with
    | c :: s' => (c =? p) && startsWith s' pat'
    | [] => false
    end
  end.

(** [pat] occurs in [s]. *)
Definition contains (s pat : jsstring) : Prop :=
  exists pre post, s = pre ++ pat ++ post.

(** [String.prototype.includes]. *)
Fixpoint includes (s pat : jsstring) : bool :=
  startsWith s pat ||
  match s with
  | [] => false
  | _ :: s' => includes s' pat
  end.

Definition digit_char (d : N) : N := 0x30 + d.

Fixpoint uint_chars (d : Decimal.uint) : jsstring :=
  match d with
  | Nil => []
  | D0 r => digit_char 0 :: uint_chars r
  | D1 r => digit_char 1 :: uint_chars r
  | D2 r => digit_char 2 :: uint_chars r
  | D3 r => digit_char 3 :: uint_chars r
  | D4 r => digit_char 4 :: uint_chars r
  | D5 r => digit_char 5 :: uint_chars r
  | D6 r => digit_char 6 :: uint_chars r
  | D7 r => digit_char 7 :: uint_chars r
  | D8 r => digit_char 8 :: uint_chars r
  | D9 r => digit_char 9 :: uint_chars r
  end.

(** Number-to-string conversion of a non-negative integer (an array index
    plus one, in the source). *)
Definition Number_toString (n : nat) : jsstring := uint_chars (Nat.to_uint n).

(** [Array.prototype.join]. *)
Fixpoint join (sep : jsstring) (parts : list jsstring) : jsstring :=
  match parts with
  | [] => []
  | [p] => p
  | p :: rest => p ++ sep ++ join sep rest
  end.

(** A property read from a parsed JSON object where the source expects a
    string: absent ([undefined]), [null], or a string. *)
Inductive jsfield :=
| Absent
| Null
| Str (s : jsstring).

(** String conversion inside a template literal. *)
Definition template (f : jsfield) : jsstring :=
  match f with
  | Absent => js "undefined"
  | Null => js "null"
  | Str s => s
  end.

End JS.
Import JS.

(** ** JSON values, [JSON.stringify] and [JSON.parse] *)

Module Json.

(** The values [JSON.parse] can return. A number is known by the literal
    it was read from: the code modelled copies numbers and never computes
    with them, so the double a literal denotes is not worked out. The
    properties of an object are in the order JavaScript lists them: array
    indices first, in ascending order, then the other keys in the order
    they were created. *)
Inductive json :=
| JNull
| JBool (b : bool)
| JNumber (literal : jsstring)
| JString (s : jsstring)
| JArray (l : list json)
| JObject (m : list (jsstring * json)).

Fixpoint obj_get (k : jsstring) (m : list (jsstring * json)) : option json :=
  match m with
  | [] => None
  | (k', v') :: m' => if str_eqb k' k then Some v' else obj_get k m'
  end.

Definition is_digit (c : N) : bool := (0x30 <=? c) && (c <=? 0x39).

(** The number a sequence of decimal digits stands for. *)
Fixpoint decimal_value (s : jsstring) (acc : N) : option N :=
  match s with
  | [] => Some acc
  | c :: r =>
    if is_digit c then decimal_value r (acc * 10 + (c - 0x30)) else None
  end.

(** The array index a property key stands for, if it is one: the key is
    the canonical decimal form of an integer below 2^32 - 1. *)
Definition array_index (k : jsstring) : option N :=
  match k with
  | [] => None
  | c :: r =>
    if (c =? 0x30) && truthy r then None
    else
      match decimal_value k 0 with
      | Some n => if n <? 4294967295 then Some n else None
      | None => None
      end
  end.

(** Overwriting the value of a key that is there: it keeps its position. *)
Fixpoint obj_replace (k : jsstring) (v : json) (m : list (jsstring * json))
  : list (jsstring * json) :=
  match m with
  | [] => []
  | (k', v') :: m' =>
    if str_eqb k' k then (k', v) :: m' else (k', v') :: obj_replace k v m'
  end.

(** A new key that is the array index [n] goes after the smaller indices. *)
Fixpoint insert_index (n : N) (k : jsstring) (v : json)
  (m : list (jsstring * json)) : list (jsstring * json) :=
  match m with
  | [] => [(k, v)]
  | (k', v') :: m' =>
    match array_index k' with
    | Some n' =>
      if n' <? n then (k', v') :: insert_index n k v m' else (k, v) :: m
    | None => (k, v) :: m
    end
  end.

(** Defining or overwriting an own property ([CreateDataProperty]): an
    existing key keeps its position; a new key is listed after the others,
    or among the array indices if it is one. *)
Definition obj_set (k : jsstring) (v : json) (m : list (jsstring * json))
  : list (jsstring * json) :=
  match obj_get k m with
  | Some _ => obj_replace k v m
  | None =>
    match array_index k with
    | Some n => insert_index n k v m
    | None => m ++ [(k, v)]
    end
  end.

(** *** Serialization *)

Definition hex_digit (d : N) : N :=
  if d <? 10 then 0x30 + d else 0x61 + (d - 10).

(** [\uXXXX] with lowercase hexadecimal digits. *)
Definition unicode_escape (c : N) : jsstring :=
  [0x5C; 0x75; hex_digit (c / 4096 mod 16); hex_digit (c / 256 mod 16);
   hex_digit (c / 16 mod 16); hex_digit (c mod 16)].

Definition is_high_surrogate (c : N) : bool := (0xD800 <=? c) && (c <=? 0xDBFF).
Definition is_low_surrogate (c : N) : bool := (0xDC00 <=? c) && (c <=? 0xDFFF).

(** One code unit that is not a surrogate, as QuoteJSONString writes it. *)
Definition quote_unit (c : N) : jsstring :=
  if c =? 0x08 then js "\b"
  else if c =? 0x09 then js "\t"
  else if c =? 0x0A then js "\n"
  else if c =? 0x0C then js "\f"
  else if c =? 0x0D then js "\r"
  else if c =? 0x22 then [0x5C; 0x22]
  else if c =? 0x5C then js "\\"
  else if c <? 0x20 then unicode_escape c
  else [c].

(** A surrogate pair is copied, a lone surrogate is escaped. *)
Fixpoint quote_chars (s : jsstring) : jsstring :=
  match s with
  | [] => []
  | c :: r =>
    if is_high_surrogate c then
      match r with
      | d :: r' =>
        if is_low_surrogate d then c :: d :: quote_chars r'
        else unicode_escape c ++ quote_chars r
      | [] => unicode_escape c
      end
    else if is_low_surrogate c then unicode_escape c ++ quote_chars r
    else quote_unit c ++ quote_chars r
  end.

Definition QuoteJSONString (s : jsstring) : jsstring :=
  0x22 :: quote_chars s ++ [0x22].

(** [JSON.stringify] without replacer or indentation. A number is written
    in its shortest decimal form, which is the literal held when that is
    how the number was written; the code modelled serializes settings only,
    which hold no number. *)
Fixpoint stringify (v : json) : jsstring :=
  match v with
  | JNull => js "null"
  | JBool true => js "true"
  | JBool false => js "false"
  | JNumber literal => literal
  | JString s => QuoteJSONString s
  | JArray l => 0x5B :: join [0x2C] (map stringify l) ++ [0x5D]
  | JObject m =>
    0x7B :: join [0x2C]
              (map (fun kv => match kv with
                              | (k, x) => QuoteJSONString k ++ 0x3A :: stringify x
                              end) m)
         ++ [0x7D]
  end.

(** The text of one member of an object. *)
Definition member_text (kv : jsstring * json) : jsstring :=
  QuoteJSONString (fst kv) ++ 0x3A :: stringify (snd kv).

(** What follows the first member, or element, up to the closing bracket
    [close]. *)
Definition continuation (close : N) (parts : list jsstring) (rest : jsstring)
  : jsstring :=
  match parts with
  | [] => close :: rest
  | _ :: _ => 0x2C :: join [0x2C] parts ++ close :: rest
  end.

(** *** Parsing *)

Definition is_json_ws (c : N) : bool :=
  (c =? 0x20) || (c =? 0x09) || (c =? 0x0A) || (c =? 0x0D).

Fixpoint skip_ws (s : jsstring) : jsstring :=
  match s with
  | c :: r => if is_json_ws c then skip_ws r else s
  | [] => []
  end.

Definition hex_value (c : N) : option N :=
  if (0x30 <=? c) && (c <=? 0x39) then Some (c - 0x30)
  else if (0x61 <=? c) && (c <=? 0x66) then Some (c - 0x61 + 10)
  else if (0x41 <=? c) && (c <=? 0x46) then Some (c - 0x41 + 10)
  else None.

Definition hex4 (h3 h2 h1 h0 : N) : option N :=
  match hex_value h3, hex_value h2, hex_value h1, hex_value h0 with
  | Some a, Some b, Some c, Some d => Some (a * 4096 + b * 256 + c * 16 + d)
  | _, _, _, _ => None
  end.

(** The character a single-letter escape stands for. *)
Definition simple_escape (e : N) : option N :=
  if e =? 0x22 then Some 0x22
  else if e =? 0x5C then Some 0x5C
  else if e =? 0x2F then Some 0x2F
  else if e =? 0x62 then Some 0x08
  else if e =? 0x66 then Some 0x0C
  else if e =? 0x6E then Some 0x0A
  else if e =? 0x72 then Some 0x0D
  else if e =? 0x74 then Some 0x09
  else None.

Definition cons_char (c : N) (r : option (jsstring * jsstring))
  : option (jsstring * jsstring) :=
  match r with
  | Some (str, rest) => Some (c :: str, rest)
  | None => None
  end.

(** The characters of a string literal after its opening quote, up to and
    including the closing quote; the text after it is returned too. *)
Fixpoint parse_chars (s : jsstring) : option (jsstring * jsstring) :=
  match s with
  | [] => None
  | c :: r =>
    if c =? 0x22 then Some ([], r)
    else if c =? 0x5C then
      match r with
      | e :: r1 =>
        if e =? 0x75 then
          match r1 with
          | h3 :: h2 :: h1 :: h0 :: r2 =>
            match hex4 h3 h2 h1 h0 with
            | Some u => cons_char u (parse_chars r2)
            | None => None
            end
          | _ => None
          end
        else
          match simple_escape e with
          | Some u => cons_char u (parse_chars r1)
          | None => None
          end
      | [] => None
      end
    else if c <? 0x20 then None
    else cons_char c (parse_chars r)
  end.

(** The longest run of digits [s] starts with, and what follows it. *)
Fixpoint digits (s : jsstring) : jsstring * jsstring :=
  match s with
  | c :: r =>
    if is_digit c then
      match digits r with
      | (ds, r') => (c :: ds, r')
      end
    else ([], s)
  | [] => ([], [])
  end.

(** The integer part of a number literal: [0], or a digit from 1 to 9
    followed by digits. *)
Definition parse_int (s : jsstring) : option (jsstring * jsstring) :=
  match s with
  | c :: r =>
    if c =? 0x30 then Some ([c], r)
    else if is_digit c then
      match digits r with
      | (ds, r') => Some (c :: ds, r')
      end
    else None
  | [] => None
  end.

(** The optional fraction: a point followed by at least one digit. *)
Definition parse_frac (s : jsstring) : option (jsstring * jsstring) :=
  match s with
  | c :: r =>
    if c =? 0x2E then
      match digits r with
      | ([], _) => None
      | (ds, r') => Some (c :: ds, r')
      end
    else Some ([], s)
  | [] => Some ([], [])
  end.

(** The optional exponent: [e] or [E], an optional sign, at least one
    digit. *)
Definition parse_exp (s : jsstring) : option (jsstring * jsstring) :=
  match s with
  | c :: r =>
    if (c =? 0x65) || (c =? 0x45) then
      let signed :=
        match r with
        | c1 :: r1 =>
          if (c1 =? 0x2B) || (c1 =? 0x2D) then ([c1], r1) else ([], r)
        | [] => ([], r)
        end in
      match digits (snd signed) with
      | ([], _) => None
      | (ds, r') => Some (c :: fst signed ++ ds, r')
      end
    else Some ([], s)
  | [] => Some ([], [])
  end.

(** A number literal: an optional minus sign, the integer part, the
    fraction, the exponent. *)
Definition parse_number (s : jsstring) : option (json * jsstring) :=
  let signed :=
    match s with
    | c :: r => if c =? 0x2D then ([c], r) else ([], s)
    | [] => ([], s)
    end in
  match parse_int (snd signed) with
  | Some (i, s1) =>
    match parse_frac s1 with
    | Some (f, s2) =>
      match parse_exp s2 with
      | Some (e, s3) => Some (JNumber (fst signed ++ i ++ f ++ e), s3)
      | None => None
      end
    | None => None
    end
  | None => None
  end.

(** Recursive descent over the JSON grammar; [fuel] bounds the number of
    values and members read, and [JSON_parse] supplies more than the text
    can need. *)
Fixpoint parse_value (fuel : nat) (s : jsstring) : option (json * jsstring) :=
  match fuel with
  | O => None
  | S fuel' =>
    match skip_ws s with
    | [] => None
    | c :: r =>
      if c =? 0x22 then
        match parse_chars r with
        | Some (str, r') => Some (JString str, r')
        | None => None
        end
      else if c =? 0x7B then
        match skip_ws r with
        | c' :: r' =>
          if c' =? 0x7D then Some (JObject [], r')
          else parse_members fuel' (c' :: r') []
        | [] => None
        end
      else if c =? 0x5B then
        match skip_ws r with
        | c' :: r' =>
          if c' =? 0x5D then Some (JArray [], r')
          else parse_elements fuel' (c' :: r') []
        | [] => None
        end
      else if startsWith (c :: r) (js "true") then
        Some (JBool true, drop 4 (c :: r))
      else if startsWith (c :: r) (js "false") then
        Some (JBool false, drop 5 (c :: r))
      else if startsWith (c :: r) (js "null") then
        Some (JNull, drop 4 (c :: r))
      else parse_number (c :: r)
    end
  end
with parse_members (fuel : nat) (s : jsstring) (acc : list (jsstring * json))
  : option (json * jsstring) :=
  match fuel with
  | O => None
  | S fuel' =>
    match skip_ws s with
    | [] => None
    | c :: r =>
      if c =? 0x22 then
        match parse_chars r with
        | Some (k, r1) =>
          match skip_ws r1 with
          | c1 :: r2 =>
            if c1 =? 0x3A then
              match parse_value fuel' r2 with
              | Some (v, r3) =>
                match skip_ws r3 with
                | c3 :: r4 =>
                  if c3 =? 0x2C then parse_members fuel' r4 (obj_set k v acc)
                  else if c3 =? 0x7D then Some (JObject (obj_set k v acc), r4)
                  else None
                | [] => None
                end
              | None => None
              end
            else None
          | [] => None
          end
        | None => None
        end
      else None
    end
  end
with parse_elements (fuel : nat) (s : jsstring) (acc : list json)
  : option (json * jsstring) :=
  match fuel with
  | O => None
  | S fuel' =>
    match parse_value fuel' s with
    | Some (v, r3) =>
      match skip_ws r3 with
      | c3 :: r4 =>
        if c3 =? 0x2C then parse_elements fuel' r4 (acc ++ [v])
        else if c3 =? 0x5D then Some (JArray (acc ++ [v]), r4)
        else None
      | [] => None
      end
    | None => None
    end
  end.

(** [JSON.parse]; [None] stands for the SyntaxError it throws. Each value,
    member and element read takes one unit of fuel, and of any two read one
    inside the other at least one takes a character of the text first:
    twice the length of the text is fuel enough (lemma [JSON_parse_fuel]). *)
Definition JSON_parse (text : jsstring) : option json :=
  match parse_value (2 * length text + 2) text with
  | Some (v, r) =>
    match skip_ws r with
    | [] => Some v
    | _ :: _ => None
    end
  | None => None
  end.

(** The own enumerable properties a spread [...v] copies. *)
Definition own_props (v : json) : list (jsstring * json) :=
  match v with
  | JObject m => m
  | JArray l => imap (fun i x => (Number_toString i, x)) l
  | JString s => imap (fun i c => (Number_toString i, JString [c])) s
  | JNull | JBool _ | JNumber _ => []
  end.

(** The object literal [{...a, ...b}]. *)
Definition spread2 (a b : json) : json :=
  JObject (fold_left (fun m kv => obj_set (fst kv) (snd kv) m)
                     (own_props b) (own_props a)).

(** The number of values and members of a value: the fuel reading its
    text back takes. *)
Fixpoint size (v : json) : nat :=
  match v with
  | JNull | JBool _ | JNumber _ | JString _ => 1
  | JArray l =>
    S ((fix elements (l : list json) : nat :=
          match l with
          | [] => O
          | x :: l' => S (size x + elements l')
          end) l)
  | JObject m =>
    S ((fix members (m : list (jsstring * json)) : nat :=
          match m with
          | [] => O
          | (_, x) :: m' => S (size x + members m')
          end) m)
  end.

Definition size_elements (l : list json) : nat :=
  fold_right (fun x n => S (size x + n)) O l.

Definition size_members (m : list (jsstring * json)) : nat :=
  fold_right (fun kv n => S (size (snd kv) + n)) O m.

(** No key of [m] is [k]. *)
Fixpoint fresh (k : jsstring) (m : list (jsstring * json)) : bool :=
  match m with
  | [] => true
  | (k', _) :: m' => negb (str_eqb k' k) && fresh k m'
  end.

Fixpoint distinct_keys (m : list (jsstring * json)) : bool :=
  match m with
  | [] => true
  | (k, _) :: m' => fresh k m' && distinct_keys m'
  end.

(** No key of [m] is an array index. *)
Definition plain_keys (m : list (jsstring * json)) : bool :=
  forallb (fun kv => match array_index (fst kv) with
                     | None => true
                     | Some _ => false
                     end) m.

(** The values whose text [stringify] writes and [JSON_parse] reads back as
    they are, by the lemmas below: no number, and at any depth no key twice
    and no array index among the keys. *)
Fixpoint well_formed (v : json) : bool :=
  match v with
  | JNull | JBool _ | JString _ => true
  | JNumber _ => false
  | JArray l =>
    (fix elements (l : list json) : bool :=
       match l with
       | [] => true
       | x :: l' => well_formed x && elements l'
       end) l
  | JObject m =>
    distinct_keys m && plain_keys m
    && (fix members (m : list (jsstring * json)) : bool :=
          match m with
          | [] => true
          | (_, x) :: m' => well_formed x && members m'
          end) m
  end.

End Json.
Import Json.

(** ** Settings and their persistence *)

Module Settings.

(** Modelled from the spec: the declaration of [AppSettings] in [./types]
    is not among the sources. The specification's Settings hold a language
    selection, API keys and model identifiers for summarization and speech;
    [App.tsx] reads [settings.language], [settings.llm.apiKey] and
    [settings.tts.apiKey]. *)
Record ServiceSettings := mkService {
  apiKey : jsstring;
  model : jsstring
}.

Record AppSettings := mkSettings {
  language : jsstring;
  llm : ServiceSettings;
  tts : ServiceSettings
}.

(** The object a value of type [AppSettings] is at run time. *)
Definition service_to_js (c : ServiceSettings) : json :=
  JObject [(js "apiKey", JString (apiKey c)); (js "model", JString (model c))].

Definition to_js (s : AppSettings) : json :=
  JObject [(js "language", JString (language s));
           (js "llm", service_to_js (llm s));
           (js "tts", service_to_js (tts s))].

(** Reading an object back at type [AppSettings]; [None] when it does not
    have that shape. *)
Definition string_prop (k : jsstring) (m : list (jsstring * json))
  : option jsstring :=
  match obj_get k m with
  | Some (JString s) => Some s
  | _ => None
  end.

Definition service_of_js (v : json) : option ServiceSettings :=
  match v with
  | JObject m =>
    match string_prop (js "apiKey") m, string_prop (js "model") m with
    | Some a, Some b => Some (mkService a b)
    | _, _ => None
    end
  | _ => None
  end.

Definition of_js (v : json) : option AppSettings :=
  match v with
  | JObject m =>
    match string_prop (js "language") m, obj_get (js "llm") m,
          obj_get (js "tts") m with
    | Some l, Some a, Some b =>
      match service_of_js a, service_of_js b with
      | Some a', Some b' => Some (mkSettings l a' b')
      | _, _ => None
      end
    | _, _, _ => None
    end
  | _ => None
  end.

(** [localStorage]: string keys to string values. *)
Abbreviation Storage := (gmap jsstring jsstring).

Definition getItem (k : jsstring) (ls : Storage) : option jsstring := ls !! k.
Definition setItem (k v : jsstring) (ls : Storage) : Storage := <[k := v]> ls.

(** The fixed key of [App.tsx]. *)
Definition app_settings : jsstring := js "app_settings".

(** The storage half of [handleSaveSettings]:
    [localStorage.setItem('app_settings', JSON.stringify(newSettings))]. *)
Definition save_settings (newSettings : AppSettings) (ls : Storage) : Storage :=
  setItem app_settings (stringify (to_js newSettings)) ls.

(** The state updater of the start-up effect when nothing is stored and a
    build-time key is present:
    [{...s, llm: {...s.llm, apiKey: KEY}, tts: {...s.tts, apiKey: KEY}}]. *)
Definition with_env_key (key : jsstring) (s : AppSettings) : AppSettings :=
  mkSettings (language s)
             (mkService key (model (llm s)))
             (mkService key (model (tts s))).

(** The start-up effect of [App] (lines 35-53): the value of the [settings]
    state once it has run, as a run-time object. [DEFAULT_SETTINGS] (from
    [./types]) and [process.env.API_KEY] are parameters; an unset
    environment variable is the empty string. *)
Definition settings_effect (DEFAULT_SETTINGS : AppSettings) (API_KEY : jsstring)
  (ls : Storage) : json :=
  match getItem app_settings ls with
  | Some saved =>
    if truthy saved then
      match JSON_parse saved with
      | Some parsed => spread2 (to_js DEFAULT_SETTINGS) parsed
      | None => to_js DEFAULT_SETTINGS
      end
    else if truthy API_KEY then to_js (with_env_key API_KEY DEFAULT_SETTINGS)
    else to_js DEFAULT_SETTINGS
  | None =>
    if truthy API_KEY then to_js (with_env_key API_KEY DEFAULT_SETTINGS)
    else to_js DEFAULT_SETTINGS
  end.

(** The same at type [AppSettings]. *)
Definition load_settings (DEFAULT_SETTINGS : AppSettings) (API_KEY : jsstring)
  (ls : Storage) : option AppSettings :=
  of_js (settings_effect DEFAULT_SETTINGS API_KEY ls).

End Settings.
Import Settings.

(** ** The feed fetcher ([ArticleInput]) *)

Module Feed.

Record Source := mkSource {
  name : jsstring;
  url : jsstring
}.

(** [SOURCES[0]] *)
Definition first_source : Source :=
  mkSource (js "IT之家 (科技)") (js "https://www.ithome.com/rss/").

Definition SOURCES : list Source :=
  [ first_source;
    mkSource (js "36Kr (商业)") (js "https://36kr.com/feed");
    mkSource (js "少数派 (生活)") (js "https://sspai.com/feed");
    mkSource (js "Solidot (极客)") (js "http://solidot.org/index.rss");
    mkSource (js "Engadget (Tech)") (js "https://www.engadget.com/rss.xml");
    mkSource (js "The Verge") (js "https://www.theverge.com/rss/index.xml");
    mkSource (js "Wired (Top)") (js "https://www.wired.com/feed/rss");
    mkSource (js "TechCrunch") (js "https://techcrunch.com/feed/") ].

(** One element of the array the feed endpoint returns. The source reads
    [a.title] and [a.content] and nothing else. *)
Record Article := mkArticle {
  title : jsfield;
  content : jsfield
}.

(** What [response.json()] gives: a rejection (the body is not JSON),
    [null], or the array of articles. *)
Inductive Body :=
| InvalidJson
| NullBody
| Articles (articles : list Article).

(** How the remote call of [fetchFeed] settles: [fetch] rejects, or it
    resolves with a response whose [ok] flag and body are given. *)
Inductive FetchResult :=
| NetworkFailure
| Response (ok : bool) (body : Body).

(** [a.content?.trim() || 'Content not available.'] *)
Definition content_text (a : Article) : jsstring :=
  match content a with
  | Str s => or_else (trim s) (js "Content not available.")
  | Absent | Null => js "Content not available."
  end.

(** The template literal of line 58, for the article at index [i]. *)
Definition format_article (i : nat) (a : Article) : jsstring :=
  js "# Article " ++ Number_toString (i + 1) ++ js ": " ++ template (title a)
  ++ [LF; LF] ++ content_text a.

Definition separator : jsstring := [LF; LF] ++ js "---" ++ [LF; LF].

(** [articles.slice(0, 5).map(...)]: the titled blocks. *)
Definition blocks (articles : list Article) : list jsstring :=
  imap format_article (take 5 articles).

(** [... .join('\n\n---\n\n')] *)
Definition formatted (articles : list Article) : jsstring :=
  join separator (blocks articles).

(** The argument of [onChange] at line 61. *)
Definition article_text (sourceName : jsstring) (articles : list Article)
  : jsstring :=
  js "【Source: " ++ sourceName ++ js "】" ++ [LF; LF] ++ formatted articles.

(** The [try] block after the [await]: [Some text] when [onChange(text)] is
    reached, [None] when an exception reaches the [catch]. *)
Definition try_assemble (sourceName : jsstring) (r : FetchResult)
  : option jsstring :=
  match r with
  | NetworkFailure => None
  | Response false _ => None
  | Response true InvalidJson => None
  | Response true NullBody => None
  | Response true (Articles []) => None
  | Response true (Articles (a :: l)) => Some (article_text sourceName (a :: l))
  end.

(** The three ways the specification's fetch fails: the response is not OK, its
    article list is absent, or it is empty. *)
Definition not_ok_or_empty (r : FetchResult) : Prop :=
  match r with
  | Response false _ => True
  | Response true NullBody => True
  | Response true (Articles []) => True
  | _ => False
  end.

(** The component's own state. *)
Record ArticleInputState := mkInput {
  isFetchingNews : bool;
  fetchStatus : jsstring;
  selectedSourceUrl : jsstring
}.

Definition set_isFetchingNews (b : bool) (s : ArticleInputState) :=
  mkInput b (fetchStatus s) (selectedSourceUrl s).
Definition set_fetchStatus (m : jsstring) (s : ArticleInputState) :=
  mkInput (isFetchingNews s) m (selectedSourceUrl s).
Definition set_selectedSourceUrl (u : jsstring) (s : ArticleInputState) :=
  mkInput (isFetchingNews s) (fetchStatus s) u.

End Feed.
Import Feed.

(** ** The application controller ([App]) *)

Module Controller.

Inductive AppState :=
| IDLE
| GENERATING_SUMMARY
| READY
| GENERATING_AUDIO
| ERROR.

Definition AppState_eqb (a b : AppState) : bool :=
  match a, b with
  | IDLE, IDLE | GENERATING_SUMMARY, GENERATING_SUMMARY | READY, READY
  | GENERATING_AUDIO, GENERATING_AUDIO | ERROR, ERROR => true
  | _, _ => false
  end.

(** The decoded audio [generateSpeech] resolves with. [synthesized_from]
    records the text that call was given; the samples are opaque. *)
Record AudioBuffer := mkAudio {
  synthesized_from : jsstring;
  samples : list Z
}.

(** A thrown value other than [null] and [undefined], as [handleError]
    looks at it: its [message] property (absent on a thrown string, say)
    and its string conversion. *)
Record JsError := mkError {
  message : option jsstring;
  as_string : jsstring
}.

(** What a promise can be rejected with: [null] or [undefined], of which
    no property can be read, or any other value. A [JsError] stands for
    itself where a [Thrown] is expected. *)
Inductive Thrown :=
| Nullish
| Value (error : JsError).
Coercion Value : JsError >-> Thrown.

(** The state of [App] once the start-up effect has run
    ([isSettingsLoaded] is true from then on). [audioContextRef] records
    whether the audio context has been created. *)
Record App := mkApp {
  textInput : jsstring;
  summary : jsstring;
  audioBuffer : option AudioBuffer;
  appState : AppState;
  errorDetails : jsstring;
  settings : AppSettings;
  isSettingsOpen : bool;
  audioContextRef : bool
}.

Definition setTextInput (v : jsstring) (a : App) : App :=
  mkApp v (summary a) (audioBuffer a) (appState a) (errorDetails a)
        (settings a) (isSettingsOpen a) (audioContextRef a).
Definition setSummary (v : jsstring) (a : App) : App :=
  mkApp (textInput a) v (audioBuffer a) (appState a) (errorDetails a)
        (settings a) (isSettingsOpen a) (audioContextRef a).
Definition setAudioBuffer (v : option AudioBuffer) (a : App) : App :=
  mkApp (textInput a) (summary a) v (appState a) (errorDetails a)
        (settings a) (isSettingsOpen a) (audioContextRef a).
Definition setAppState (v : AppState) (a : App) : App :=
  mkApp (textInput a) (summary a) (audioBuffer a) v (errorDetails a)
        (settings a) (isSettingsOpen a) (audioContextRef a).
Definition setErrorDetails (v : jsstring) (a : App) : App :=
  mkApp (textInput a) (summary a) (audioBuffer a) (appState a) v
        (settings a) (isSettingsOpen a) (audioContextRef a).
Definition setSettings (v : AppSettings) (a : App) : App :=
  mkApp (textInput a) (summary a) (audioBuffer a) (appState a) (errorDetails a)
        v (isSettingsOpen a) (audioContextRef a).
Definition setIsSettingsOpen (v : bool) (a : App) : App :=
  mkApp (textInput a) (summary a) (audioBuffer a) (appState a) (errorDetails a)
        (settings a) v (audioContextRef a).
Definition setAudioContextRef (v : bool) (a : App) : App :=
  mkApp (textInput a) (summary a) (audioBuffer a) (appState a) (errorDetails a)
        (settings a) (isSettingsOpen a) v.

(** The [useState] initial values, with [settings] as the start-up effect
    left them. *)
Definition initial (s : AppSettings) : App :=
  mkApp [] [] None IDLE [] s false false.

(** A remote call that has been started and has not settled. The handler
    that awaits it resumes with the variables of the render it was created
    in: [settings] for both, and [summary] for the speech call. *)
Inductive Pending :=
| Summarizing (text : jsstring) (closure_settings : AppSettings)
| Synthesizing (text : jsstring) (closure_settings : AppSettings)
| Fetching (feedUrl sourceName : jsstring).

Inductive Settled (A : Type) :=
| Fulfilled (value : A)
| Rejected (error : Thrown).
Arguments Fulfilled {A} value.
Arguments Rejected {A} error.

(** [error.message || String(error)] *)
Definition raw_message (e : JsError) : jsstring :=
  match message e with
  | Some m => or_else m (as_string e)
  | None => as_string e
  end.

(** [handleError] (lines 110-118), with the [settings] in its scope. On
    [null] or [undefined] the state is set and reading [error.message]
    throws: the handler ends there, with the error details as they were. *)
Definition handleError (st : AppSettings) (error : Thrown) (a : App) : App :=
  let a := setAppState ERROR a in
  match error with
  | Nullish => a
  | Value e =>
    let msg := raw_message e in
    let msg :=
      if includes msg (js "SAFETY") then
        if str_eqb (language st) (js "zh-CN") then js "内容被安全过滤器拦截。"
        else js "Content blocked by safety filters."
      else msg in
    setErrorDetails msg a
  end.

(** [handleGenerateSummary] (lines 79-93) up to its [await]: the new state
    and the call it starts, if any. *)
Definition handleGenerateSummary (a : App) : App * option Pending :=
  if negb (truthy (trim (textInput a))) then (a, None)
  else
    let a' := setAudioBuffer None
                (setSummary []
                   (setAppState GENERATING_SUMMARY (setErrorDetails [] a))) in
    (a', Some (Summarizing (textInput a) (settings a))).

(** ... and from the [await] on, when [summarizeArticles] has settled. *)
Definition handleGenerateSummary_resume (st : AppSettings)
  (r : Settled jsstring) (a : App) : App :=
  match r with
  | Fulfilled summaryText => setAppState READY (setSummary summaryText a)
  | Rejected error => handleError st error a
  end.

(** [handleGenerateAudio] (lines 96-108) up to its [await]. *)
Definition handleGenerateAudio (a : App) : App * option Pending :=
  if negb (truthy (summary a)) then (a, None)
  else
    let a' := setAppState GENERATING_AUDIO (setAudioContextRef true a) in
    (a', Some (Synthesizing (summary a) (settings a))).

(** ... and from the [await] on, when [generateSpeech] has settled. *)
Definition handleGenerateAudio_resume (st : AppSettings) (text : jsstring)
  (r : Settled (list Z)) (a : App) : App :=
  match r with
  | Fulfilled pcm => setAppState READY (setAudioBuffer (Some (mkAudio text pcm)) a)
  | Rejected error => handleError st error a
  end.

(** [isConfigMissing = !settings.llm.apiKey] (line 120). *)
Definition isConfigMissing (a : App) : bool :=
  negb (truthy (apiKey (llm (settings a)))).

(** The [disabled] attribute of the "generate summary" button
    ([ArticleInput], line 160). *)
Definition summary_button_disabled (a : App) : bool :=
  negb (truthy (trim (textInput a)))
  || AppState_eqb (appState a) GENERATING_SUMMARY
  || isConfigMissing a.

(** The "generate audio" button is rendered inside the reading view, in
    place of the player, and disabled while audio is generated
    (lines 236, 251, 258). *)
Definition audio_button_rendered (a : App) : bool :=
  (AppState_eqb (appState a) READY || AppState_eqb (appState a) GENERATING_AUDIO)
  && match audioBuffer a with None => true | Some _ => false end.

Definition audio_button_disabled (a : App) : bool :=
  AppState_eqb (appState a) GENERATING_AUDIO.

Inductive TimerCallback :=
| ClearFetchStatus.

(** A timer set with [setTimeout]: its delay in milliseconds and what it
    runs. *)
Record Timer := mkTimer {
  delay : N;
  callback : TimerCallback
}.

(** The page: both components, the remote calls in flight, the timers
    set and [localStorage]. *)
Record World := mkWorld {
  app : App;
  input : ArticleInputState;
  inflight : list Pending;
  timers : list Timer;
  localStorage : Storage
}.

Definition with_app (f : App -> App) (w : World) : World :=
  mkWorld (f (app w)) (input w) (inflight w) (timers w) (localStorage w).
Definition with_input (f : ArticleInputState -> ArticleInputState) (w : World)
  : World :=
  mkWorld (app w) (f (input w)) (inflight w) (timers w) (localStorage w).
Definition start_call (p : Pending) (w : World) : World :=
  mkWorld (app w) (input w) (inflight w ++ [p]) (timers w) (localStorage w).
Definition end_call (i : nat) (w : World) : World :=
  mkWorld (app w) (input w) (delete i (inflight w)) (timers w) (localStorage w).
Definition setTimeout (t : Timer) (w : World) : World :=
  mkWorld (app w) (input w) (inflight w) (timers w ++ [t]) (localStorage w).
Definition clear_timer (i : nat) (w : World) : World :=
  mkWorld (app w) (input w) (inflight w) (delete i (timers w)) (localStorage w).

Definition mounted (s : AppSettings) (ls : Storage) : World :=
  mkWorld (initial s) (mkInput false [] []) [] [] ls.

(** [handleSaveSettings] (lines 73-76). *)
Definition handleSaveSettings (newSettings : AppSettings) (w : World) : World :=
  mkWorld (setSettings newSettings (app w)) (input w) (inflight w) (timers w)
          (save_settings newSettings (localStorage w)).

(** [fetchFeed] (lines 38-70) up to its [await]. The address requested is
    the proxy's, with [url] as its percent-encoded [rss_url] parameter. *)
Definition fetchFeed (url sourceName : jsstring) (w : World) : World :=
  if isFetchingNews (input w) then w
  else
    let w := with_input (set_isFetchingNews true) w in
    let w := with_input
               (set_fetchStatus (js "Connecting to " ++ sourceName ++ js "..."))
               w in
    start_call (Fetching url sourceName) w.

(** ... and from the [await] on: the rest of the [try], the [catch] and the
    [finally]. *)
Definition fetchFeed_resume (sourceName : jsstring) (r : FetchResult)
  (w : World) : World :=
  let w :=
    match try_assemble sourceName r with
    | Some text =>
      with_input (set_fetchStatus []) (with_app (setTextInput text) w)
    | None =>
      setTimeout (mkTimer 3000 ClearFetchStatus)
                 (with_input (set_fetchStatus (js "Failed to fetch")) w)
    end in
  with_input (set_isFetchingNews false) w.

Definition run_callback (c : TimerCallback) (w : World) : World :=
  match c with
  | ClearFetchStatus => with_input (set_fetchStatus []) w
  end.

(** [handleSelectSource] (lines 72-78). *)
Definition handleSelectSource (url : jsstring) (w : World) : World :=
  let w := with_input (set_selectedSourceUrl url) w in
  if truthy url then
    match find (fun s => str_eqb (Feed.url s) url) SOURCES with
    | Some source => fetchFeed url (name source) w
    | None => w
    end
  else w.

(** [handleRandomSource] (lines 80-86); [pick] is the index
    [Math.floor(Math.random() * otherSources.length)]. *)
Definition handleRandomSource (pick : nat) (w : World) : World :=
  let otherSources :=
    filter (fun s => negb (str_eqb (Feed.url s) (selectedSourceUrl (input w))))
           SOURCES in
  let randomSource :=
    match otherSources !! pick with
    | Some s => s
    | None => first_source
    end in
  fetchFeed (Feed.url randomSource) (name randomSource)
            (with_input (set_selectedSourceUrl (Feed.url randomSource)) w).

(** How a call in flight settles. *)
Inductive Outcome :=
| SummaryOutcome (r : Settled jsstring)
| SpeechOutcome (r : Settled (list Z))
| FeedOutcome (r : FetchResult).

(** What can happen to the page. A click on a control that is disabled or
    not rendered does nothing. *)
Inductive Event :=
| Change (value : jsstring)
| Clear (confirmed : bool)
| ClickGenerateSummary
| ClickGenerateAudio
| SelectSource (url : jsstring)
| RandomSource (pick : nat)
| OpenSettings
| CloseSettings
| SaveSettings (newSettings : AppSettings)
| Settle (i : nat) (o : Outcome)
| TimerFires (i : nat).

Definition on_start (r : App * option Pending) (w : World) : World :=
  match r with
  | (a, Some p) => start_call p (with_app (fun _ => a) w)
  | (a, None) => with_app (fun _ => a) w
  end.

Definition step (e : Event) (w : World) : World :=
  match e with
  | Change value =>
    if isConfigMissing (app w) then w else with_app (setTextInput value) w
  | Clear confirmed =>
    if truthy (textInput (app w)) && confirmed
    then with_app (setTextInput []) w else w
  | ClickGenerateSummary =>
    if summary_button_disabled (app w) then w
    else on_start (handleGenerateSummary (app w)) w
  | ClickGenerateAudio =>
    if audio_button_rendered (app w) && negb (audio_button_disabled (app w))
    then on_start (handleGenerateAudio (app w)) w
    else w
  | SelectSource url =>
    if isFetchingNews (input w) || isConfigMissing (app w) then w
    else handleSelectSource url w
  | RandomSource pick =>
    if isFetchingNews (input w) || isConfigMissing (app w) then w
    else handleRandomSource pick w
  | OpenSettings => with_app (setIsSettingsOpen true) w
  | CloseSettings => with_app (setIsSettingsOpen false) w
  | SaveSettings newSettings => handleSaveSettings newSettings w
  | Settle i o =>
    match inflight w !! i, o with
    | Some (Summarizing _ st), SummaryOutcome r =>
      with_app (handleGenerateSummary_resume st r) (end_call i w)
    | Some (Synthesizing text st), SpeechOutcome r =>
      with_app (handleGenerateAudio_resume st text r) (end_call i w)
    | Some (Fetching _ sourceName), FeedOutcome r =>
      fetchFeed_resume sourceName r (end_call i w)
    | _, _ => w
    end
  | TimerFires i =>
    match timers w !! i with
    | Some t => run_callback (callback t) (clear_timer i w)
    | None => w
    end
  end.

Definition run (evs : list Event) (w : World) : World :=
  fold_left (fun w e => step e w) evs w.

(** The worlds the page can be in. *)
Definition reachable (w : World) : Prop :=
  exists s ls evs, w = run evs (mounted s ls).

(** The audio held, if any, was synthesized from the summary held. *)
Definition audio_matches_summary (a : App) : Prop :=
  match audioBuffer a with
  | Some b => synthesized_from b = summary a
  | None => True
  end.

(** The three kinds of remote call. *)
Inductive Kind :=
| FeedFetch
| Summarization
| SpeechSynthesis.

Definition kind_of (p : Pending) : Kind :=
  match p with
  | Fetching _ _ => FeedFetch
  | Summarizing _ _ => Summarization
  | Synthesizing _ _ => SpeechSynthesis
  end.

Definition Kind_eqb (a b : Kind) : bool :=
  match a, b with
  | FeedFetch, FeedFetch | Summarization, Summarization
  | SpeechSynthesis, SpeechSynthesis => true
  | _, _ => false
  end.

(** The number of calls of kind [k] in flight. *)
Fixpoint count (k : Kind) (l : list Pending) : nat :=
  match l with
  | [] => O
  | p :: l' => ((if Kind_eqb (kind_of p) k then 1 else 0) + count k l')%nat
  end.

Definition outstanding (k : Kind) (w : World) : nat := count k (inflight w).

(** The flag tells whether a feed call is in flight, and there is at most
    one. *)
Definition flag_tracks_fetch (w : World) : Prop :=
  outstanding FeedFetch w = if isFetchingNews (input w) then 1%nat else 0%nat.

Definition fetch_in_flight (w : World) : Prop :=
  exists i feedUrl sourceName,
    inflight w !! i = Some (Fetching feedUrl sourceName).

Definition speech_in_flight (w : World) : Prop :=
  exists i text st, inflight w !! i = Some (Synthesizing text st).

(** The calls for speech in flight were given the summary held. *)
Definition synthesizing_summary (w : World) : Prop :=
  Forall (fun p => match p with
                   | Synthesizing text _ => text = summary (app w)
                   | _ => True
                   end) (inflight w).

(** A run in which "generate summary" is never clicked while a call for
    speech is in flight. *)
Fixpoint serial (evs : list Event) (w : World) : Prop :=
  match evs with
  | [] => True
  | e :: evs' =>
    (e = ClickGenerateSummary -> outstanding SpeechSynthesis w = O)
    /\ serial evs' (step e w)
  end.

(** What holds of the page along such a run. *)
Record serial_invariant (w : World) : Prop := mkSerial {
  inv_audio : audio_matches_summary (app w);
  inv_text : synthesizing_summary w;
  inv_summarizing :
    (1 <= outstanding Summarization w)%nat ->
    appState (app w) = GENERATING_SUMMARY /\ audioBuffer (app w) = None
    /\ outstanding SpeechSynthesis w = O
    /\ outstanding Summarization w = 1%nat;
  inv_synthesizing :
    (1 <= outstanding SpeechSynthesis w)%nat ->
    appState (app w) = GENERATING_AUDIO
    /\ outstanding SpeechSynthesis w = 1%nat
}.

(** *** Two scenarios

    A user with a configured key summarizes some text, asks for audio, and
    clicks "generate summary" again before the audio has arrived (the
    button is enabled: the state is generating-audio, not
    generating-summary). *)
Definition a_key : AppSettings :=
  mkSettings (js "en") (mkService (js "key") (js "m")) (mkService (js "key") (js "v")).

Definition overlap : list Event :=
  [ Change (js "news");
    ClickGenerateSummary;
    Settle 0 (SummaryOutcome (Fulfilled (js "S1")));
    ClickGenerateAudio;
    ClickGenerateSummary ].

(** Then the audio of the first summary arrives, and after it the second
    summary. *)
Definition stale_audio : list Event :=
  overlap ++ [ Settle 0 (SpeechOutcome (Fulfilled [1%Z; 2%Z]));
               Settle 0 (SummaryOutcome (Fulfilled (js "S2"))) ].

(** Or the second summary arrives while the first audio call is still in
    flight. *)
Definition audio_still_pending : list Event :=
  overlap ++ [ Settle 1 (SummaryOutcome (Fulfilled (js "S2"))) ].

End Controller.
Import Controller.

(** ** What the page shows *)

Module View.

(** [String.prototype.split] with a separator of one code unit: the pieces
    between its occurrences, empty pieces included. *)
Fixpoint split (sep : N) (s : jsstring) : list jsstring :=
  match s with
  | [] => [[]]
  | c :: r =>
    if c =? sep then [] :: split sep r
    else
      match split sep r with
      | piece :: pieces => (c :: piece) :: pieces
      | [] => [[c]]
      end
  end.

(** The body of the reading view ([App], lines 288-292): one entry per
    line of the summary, the trimmed line as a paragraph, or [null] for a
    blank line. *)
Definition paragraphs (summary : jsstring) : list (option jsstring) :=
  map (fun para =>
         let trimmed := trim para in
         if truthy trimmed then Some trimmed else None)
      (split LF summary).

(** The error banner ([App], line 209). *)
Definition error_shown (a : App) : bool :=
  AppState_eqb (appState a) ERROR || truthy (errorDetails a).

(** The reading view, which holds the summary and the audio controls
    ([App], line 236). *)
Definition reading_view_shown (a : App) : bool :=
  AppState_eqb (appState a) READY || AppState_eqb (appState a) GENERATING_AUDIO.

(** The status toast ([ArticleInput], line 148). *)
Definition toast_shown (s : ArticleInputState) : bool :=
  truthy (fetchStatus s).

(** [otherSources] of [handleRandomSource] (line 82). *)
Definition otherSources (selected : jsstring) : list Source :=
  filter (fun s => negb (str_eqb (Feed.url s) selected)) SOURCES.

(** A feed call is for an entry of [SOURCES]: its address with the name
    listed for it. *)
Definition from_SOURCES (p : Pending) : Prop :=
  match p with
  | Fetching feedUrl sourceName => mkSource sourceName feedUrl ∈ SOURCES
  | _ => True
  end.

(** Events other than saving settings. *)
Definition keeps_settings (e : Event) : Prop :=
  match e with
  | SaveSettings _ => False
  | _ => True
  end.

End View.
Import View.

(** * Properties *)

(** ** Strings *)

Example js_ascii : js "SAFETY" = [83; 65; 70; 69; 84; 89].
Proof. reflexivity. Qed.

Example js_bmp : js "【】。" = [0x3010; 0x3011; 0x3002].
Proof. reflexivity. Qed.

Example trim_example :
  trim ([0x20; LF] ++ js "a b" ++ [0x09; 0xA0; 0x3000]) = js "a b".
Proof. reflexivity. Qed.

Example Number_toString_12 : Number_toString 12 = js "12".
Proof. reflexivity. Qed.

Example join_example :
  join (js ", ") [js "a"; js "b"; js "c"] = js "a, b, c".
Proof. reflexivity. Qed.

Lemma str_eqb_eq (a b : jsstring) : str_eqb a b = true <-> a = b.
Proof.
  revert b. induction a as [|x a IH]; intros [|y b]; simpl;
    try (split; [reflexivity || discriminate | reflexivity || discriminate]).
  rewrite andb_true_iff, N.eqb_eq, IH. split.
  - intros [-> ->]. reflexivity.
  - intros E. injection E. auto.
Qed.

Lemma str_eqb_refl (a : jsstring) : str_eqb a a = true.
Proof. apply str_eqb_eq. reflexivity. Qed.

Lemma startsWith_spec (s pat : jsstring) :
  startsWith s pat = true <-> exists post, s = pat ++ post.
Proof.
  revert s. induction pat as [|p pat IH]; intros s; simpl.
  - split; [intros _; exists s; reflexivity | reflexivity].
  - destruct s as [|c s].
    + split; [discriminate | intros [post E]; discriminate E].
    + rewrite andb_true_iff, N.eqb_eq, IH. split.
      * intros [-> [post ->]]. eauto.
      * intros [post E]. injection E as -> ->. eauto.
Qed.

Lemma includes_contains (s pat : jsstring) :
  includes s pat = true <-> contains s pat.
Proof.
  unfold contains. induction s as [|c s IH].
  - simpl. rewrite orb_false_r, startsWith_spec. split.
    + intros [post E]. exists [], post. exact E.
    + intros [[|x pre] [post E]]; [eauto | discriminate E].
  - cbn [includes]. rewrite orb_true_iff, startsWith_spec, IH. split.
    + intros [[post E] | (pre & post & E)].
      * exists [], post. exact E.
      * exists (c :: pre), post. simpl. congruence.
    + intros ([|x pre] & post & E).
      * left. eauto.
      * right. injection E as -> ->. eauto.
Qed.

Lemma includes_false (s pat : jsstring) :
  includes s pat = false <-> ~ contains s pat.
Proof.
  rewrite <- includes_contains. destruct (includes s pat); split; congruence.
Qed.

Lemma truthy_true (s : jsstring) : truthy s = true <-> s <> [].
Proof. destruct s; simpl; split; congruence. Qed.

(** Trimming the empty string gives the empty string. *)
Lemma trim_nonempty (s : jsstring) : trim s <> [] -> s <> [].
Proof. intros H ->. apply H. reflexivity. Qed.

(** ** The feed fetcher *)

Lemma blocks_length (articles : list Article) :
  length (blocks articles) = Nat.min 5 (length articles).
Proof. unfold blocks. rewrite length_imap. apply length_take. Qed.

Lemma blocks_lookup (articles : list Article) (i : nat) (a : Article) :
  articles !! i = Some a -> (i < 5)%nat ->
  blocks articles !! i = Some (format_article i a).
Proof.
  intros Ha Hi. unfold blocks.
  rewrite list_lookup_imap, lookup_take_lt by exact Hi.
  rewrite Ha. reflexivity.
Qed.

Lemma try_assemble_nonempty (sourceName : jsstring) (articles : list Article) :
  articles <> [] ->
  try_assemble sourceName (Response true (Articles articles))
  = Some (article_text sourceName articles).
Proof. destruct articles; [congruence | reflexivity]. Qed.

(** C2. When the feed call resolves with an OK response holding at least
    one article, the article text becomes, whatever it was before, the
    source label line, a blank line, and then one block for each of the
    first five articles and no more, with the line [---] between two
    blocks, a blank line before it and after it. A block is the line
    "# Article", the number of the article counted from 1, a colon and the
    title, then a blank line and the content. Said with the list of blocks:
    there are min(5, n) of them, joined by the separator. *)
Theorem fetch_success_overwrites_text
  (w : World) (i : nat) (feedUrl sourceName : jsstring)
  (articles : list Article) :
  inflight w !! i = Some (Fetching feedUrl sourceName) ->
  articles <> [] ->
  let w' := step (Settle i (FeedOutcome (Response true (Articles articles)))) w in
  let block (number : jsstring) (a : Article) : jsstring :=
    js "# Article " ++ number ++ js ": " ++ template (title a)
    ++ [LF; LF] ++ content_text a in
  let sep : jsstring := [LF; LF] ++ js "---" ++ [LF; LF] in
  textInput (app w')
  = js "【Source: " ++ sourceName ++ js "】" ++ [LF; LF]
    ++ match articles with
       | [] => []
       | [a1] => block (js "1") a1
       | [a1; a2] => block (js "1") a1 ++ sep ++ block (js "2") a2
       | [a1; a2; a3] =>
         block (js "1") a1 ++ sep ++ block (js "2") a2 ++ sep
         ++ block (js "3") a3
       | [a1; a2; a3; a4] =>
         block (js "1") a1 ++ sep ++ block (js "2") a2 ++ sep
         ++ block (js "3") a3 ++ sep ++ block (js "4") a4
       | a1 :: a2 :: a3 :: a4 :: a5 :: _ =>
         block (js "1") a1 ++ sep ++ block (js "2") a2 ++ sep
         ++ block (js "3") a3 ++ sep ++ block (js "4") a4 ++ sep
         ++ block (js "5") a5
       end
  /\ textInput (app w')
     = js "【Source: " ++ sourceName ++ js "】" ++ [LF; LF]
       ++ join ([LF; LF] ++ js "---" ++ [LF; LF]) (blocks articles)
  /\ length (blocks articles) = Nat.min 5 (length articles)
  /\ forall (j : nat) (a : Article),
       articles !! j = Some a -> (j < 5)%nat ->
       blocks articles !! j
       = Some (js "# Article " ++ Number_toString (j + 1) ++ js ": "
               ++ template (title a) ++ [LF; LF] ++ content_text a).
Proof.
  intros Hp Hne w' block sep. subst w'. cbn [step]. rewrite Hp.
  unfold fetchFeed_resume. rewrite (try_assemble_nonempty _ _ Hne).
  split; [| split; [reflexivity | split; [apply blocks_length |]]].
  - cbn [with_input with_app app textInput setTextInput].
    unfold article_text. do 4 f_equal. unfold formatted, blocks.
    destruct articles as [|a1 [|a2 [|a3 [|a4 [|a5 rest]]]]];
      [congruence | reflexivity ..].
  - intros j a Ha Hj. apply (blocks_lookup _ _ _ Ha Hj).
Qed.

(** A user with a key has typed "old" and picks the second source; the feed
    answers with six articles. *)
Lemma fetch_success_overwrites_text_witness :
  let w := run [Change (js "old"); SelectSource (js "https://36kr.com/feed")]
               (mounted a_key ∅) in
  let articles :=
    [ mkArticle (Str (js "One")) (Str (js "  first body  "));
      mkArticle (Str (js "Two")) Absent;
      mkArticle Absent (Str (js "third"));
      mkArticle (Str (js "Four")) (Str (js " "));
      mkArticle Null Null;
      mkArticle (Str (js "Six")) (Str (js "sixth")) ] in
  textInput (app w) = js "old"
  /\ textInput
       (app (step (Settle 0 (FeedOutcome (Response true (Articles articles))))
               w))
     = js "【Source: 36Kr (商业)】" ++ [LF; LF]
       ++ js "# Article 1: One" ++ [LF; LF] ++ js "first body"
       ++ [LF; LF] ++ js "---" ++ [LF; LF]
       ++ js "# Article 2: Two" ++ [LF; LF] ++ js "Content not available."
       ++ [LF; LF] ++ js "---" ++ [LF; LF]
       ++ js "# Article 3: undefined" ++ [LF; LF] ++ js "third"
       ++ [LF; LF] ++ js "---" ++ [LF; LF]
       ++ js "# Article 4: Four" ++ [LF; LF] ++ js "Content not available."
       ++ [LF; LF] ++ js "---" ++ [LF; LF]
       ++ js "# Article 5: null" ++ [LF; LF] ++ js "Content not available.".
Proof.
  intros w articles.
  assert (Hp : inflight w !! 0%nat
               = Some (Fetching (js "https://36kr.com/feed") (js "36Kr (商业)")))
    by (vm_compute; reflexivity).
  assert (Hne : articles <> []) by discriminate.
  split; [vm_compute; reflexivity |].
  refine (eq_trans
            (proj1 (fetch_success_overwrites_text
                      w 0%nat (js "https://36kr.com/feed") (js "36Kr (商业)")
                      articles Hp Hne)) _).
  vm_compute. reflexivity.
Defined.

Lemma try_assemble_failed (sourceName : jsstring) (r : FetchResult) :
  not_ok_or_empty r -> try_assemble sourceName r = None.
Proof. destruct r as [|[] [| |[|]]]; simpl; tauto. Qed.

(** C10. An article among the first five whose content is missing, null or
    blank after trimming gets a block that ends in the placeholder: its
    numbered title line, a blank line, and "Content not available.". *)
Theorem missing_content_placeholder
  (articles : list Article) (i : nat) (a : Article) :
  articles !! i = Some a -> (i < 5)%nat ->
  (content a = Absent \/ content a = Null
   \/ exists s, content a = Str s /\ trim s = []) ->
  blocks articles !! i
  = Some (js "# Article " ++ Number_toString (i + 1) ++ js ": "
          ++ template (title a) ++ [LF; LF] ++ js "Content not available.").
Proof.
  intros Ha Hi Hc. rewrite (blocks_lookup _ _ _ Ha Hi).
  unfold format_article, content_text.
  destruct Hc as [-> | [-> | (s & -> & Hs)]]; try reflexivity.
  rewrite Hs. reflexivity.
Qed.

Lemma missing_content_placeholder_witness :
  blocks [mkArticle (Str (js "A")) (Str (js "text"));
          mkArticle (Str (js "B")) (Str [0x20; LF; 0x09])] !! 1%nat
  = Some (js "# Article 2: B" ++ [LF; LF] ++ js "Content not available.").
Proof.
  apply (missing_content_placeholder
           [mkArticle (Str (js "A")) (Str (js "text"));
            mkArticle (Str (js "B")) (Str [0x20; LF; 0x09])]
           1%nat (mkArticle (Str (js "B")) (Str [0x20; LF; 0x09]))).
  - reflexivity.
  - lia.
  - right. right. exists [0x20; LF; 0x09]. split; reflexivity.
Defined.

(** C5. When a feed call settles with a response that is not OK, or with an
    absent or empty article list, the article text stays as it is, the
    status becomes "Failed to fetch" (which the toast shows), one timer of
    3000 ms is added, and when that timer fires the status is empty again. *)
Theorem fetch_failure_transient_status
  (w : World) (i : nat) (feedUrl sourceName : jsstring) (r : FetchResult) :
  inflight w !! i = Some (Fetching feedUrl sourceName) ->
  not_ok_or_empty r ->
  let w' := step (Settle i (FeedOutcome r)) w in
  textInput (app w') = textInput (app w)
  /\ fetchStatus (input w') = js "Failed to fetch"
  /\ truthy (fetchStatus (input w')) = true
  /\ timers w' = timers w ++ [mkTimer 3000 ClearFetchStatus]
  /\ fetchStatus (input (step (TimerFires (length (timers w))) w')) = []
  /\ textInput (app (step (TimerFires (length (timers w))) w'))
     = textInput (app w).
Proof.
  intros Hp Hr w'. subst w'. cbn [step]. rewrite Hp.
  unfold fetchFeed_resume. rewrite (try_assemble_failed _ _ Hr).
  cbn [with_input setTimeout end_call app input timers inflight
       set_isFetchingNews set_fetchStatus fetchStatus].
  rewrite list_lookup_middle by reflexivity.
  repeat split; reflexivity.
Qed.

Lemma fetch_failure_transient_status_witness :
  let w := fetchFeed (js "u") (js "X")
             (with_app (setTextInput (js "old"))
                (mounted (mkSettings [] (mkService [] []) (mkService [] [])) ∅)) in
  let w' := step (Settle 0 (FeedOutcome (Response true (Articles [])))) w in
  textInput (app w') = js "old"
  /\ fetchStatus (input w') = js "Failed to fetch"
  /\ truthy (fetchStatus (input w')) = true
  /\ timers w' = [mkTimer 3000 ClearFetchStatus]
  /\ fetchStatus (input (step (TimerFires 0) w')) = []
  /\ textInput (app (step (TimerFires 0) w')) = js "old".
Proof.
  intros w w'.
  apply (fetch_failure_transient_status w 0%nat (js "u") (js "X")
           (Response true (Articles []))).
  - reflexivity.
  - exact I.
Defined.

(** C9. A call of [fetchFeed] that finds the flag clear sets it and starts
    one remote call; however that call settles, and whatever happened in
    between, [isFetchingNews] is false afterwards. *)
Theorem fetchFeed_resets_flag (w : World) (feedUrl sourceName : jsstring) :
  isFetchingNews (input w) = false ->
  let w1 := fetchFeed feedUrl sourceName w in
  isFetchingNews (input w1) = true
  /\ inflight w1 = inflight w ++ [Fetching feedUrl sourceName]
  /\ forall (w2 : World) (i : nat) (r : FetchResult),
       inflight w2 !! i = Some (Fetching feedUrl sourceName) ->
       isFetchingNews (input (step (Settle i (FeedOutcome r)) w2)) = false
       /\ inflight (step (Settle i (FeedOutcome r)) w2) = delete i (inflight w2).
Proof.
  intros Hf w1. subst w1. unfold fetchFeed. rewrite Hf.
  split; [reflexivity |]. split; [reflexivity |].
  intros w2 i r Hp. cbn [step]. rewrite Hp. unfold fetchFeed_resume.
  destruct (try_assemble sourceName r); split; reflexivity.
Qed.

Lemma fetchFeed_resets_flag_witness :
  let w := mounted (mkSettings [] (mkService [] []) (mkService [] [])) ∅ in
  let w1 := fetchFeed (js "u") (js "X") w in
  isFetchingNews (input w1) = true
  /\ isFetchingNews (input (step (Settle 0 (FeedOutcome NetworkFailure)) w1))
     = false.
Proof.
  intros w w1.
  destruct (fetchFeed_resets_flag w (js "u") (js "X") eq_refl) as (H1 & _ & H3).
  split; [exact H1 |].
  exact (proj1 (H3 w1 0%nat NetworkFailure eq_refl)).
Defined.

(** ** The application controller *)

Lemma raw_message_of_message (e : JsError) (m : jsstring) :
  message e = Some m -> m <> [] -> raw_message e = m.
Proof.
  intros Hm Hne. unfold raw_message. rewrite Hm.
  destruct m; [congruence | reflexivity].
Qed.

(** A message that contains "SAFETY" is the one [handleError] works on: it
    is not empty, so [String(error)] is not consulted. *)
Lemma raw_message_contains (e : JsError) (m : jsstring) :
  message e = Some m -> contains m (js "SAFETY") -> raw_message e = m.
Proof.
  intros Hm (pre & post & E). apply (raw_message_of_message _ _ Hm).
  subst m. destruct pre; discriminate.
Qed.

(** [handleError] on a value other than [null] and [undefined] moves to
    the error state. If the message it works on
    ([error.message || String(error)]) contains "SAFETY" and the language of
    the settings in its scope is zh-CN, the error details are the fixed
    Chinese sentence; if it does not contain "SAFETY", they are that message
    itself. *)
Lemma handleError_safety (st : AppSettings) (e : JsError) (a : App) :
  appState (handleError st e a) = ERROR
  /\ (contains (raw_message e) (js "SAFETY") ->
      language st = js "zh-CN" ->
      errorDetails (handleError st e a) = js "内容被安全过滤器拦截。")
  /\ (~ contains (raw_message e) (js "SAFETY") ->
      errorDetails (handleError st e a) = raw_message e).
Proof.
  split; [reflexivity |]. split.
  - intros Hc Hl. apply includes_contains in Hc.
    unfold handleError. cbn [errorDetails setErrorDetails].
    rewrite Hc, Hl. reflexivity.
  - intros Hc. apply includes_false in Hc.
    unfold handleError. cbn [errorDetails setErrorDetails].
    rewrite Hc. reflexivity.
Qed.

Lemma handleError_safety_witness :
  let st := mkSettings (js "zh-CN") (mkService (js "k") []) (mkService [] []) in
  let e := mkError (Some (js "Blocked: SAFETY (prompt)")) (js "Error: Blocked: SAFETY (prompt)") in
  let e' := mkError (Some (js "quota exceeded")) (js "Error: quota exceeded") in
  errorDetails (handleError st e (initial st)) = js "内容被安全过滤器拦截。"
  /\ errorDetails (handleError st e' (initial st)) = js "quota exceeded".
Proof.
  intros st e e'. split.
  - refine (proj1 (proj2 (handleError_safety st e (initial st))) _ _).
    + exists (js "Blocked: "), (js " (prompt)"). vm_compute. reflexivity.
    + reflexivity.
  - refine (proj2 (proj2 (handleError_safety st e' (initial st))) _).
    apply includes_false. vm_compute. reflexivity.
Defined.

(** C7. With an empty article text, "generate summary" does nothing: the
    handler returns at its first line and starts no call, and the click
    leaves the whole page as it was, so an idle application stays idle with
    the same summary, audio buffer and error details. *)
Theorem generate_summary_empty_input (w : World) :
  textInput (app w) = [] ->
  handleGenerateSummary (app w) = (app w, None)
  /\ step ClickGenerateSummary w = w
  /\ (appState (app w) = IDLE ->
      appState (app (step ClickGenerateSummary w)) = IDLE)
  /\ summary (app (step ClickGenerateSummary w)) = summary (app w)
  /\ audioBuffer (app (step ClickGenerateSummary w)) = audioBuffer (app w)
  /\ errorDetails (app (step ClickGenerateSummary w)) = errorDetails (app w).
Proof.
  intros Ht.
  assert (Hs : step ClickGenerateSummary w = w).
  { cbn [step]. unfold summary_button_disabled. rewrite Ht. reflexivity. }
  rewrite Hs. unfold handleGenerateSummary. rewrite Ht.
  repeat split; auto.
Qed.

Lemma generate_summary_empty_input_witness :
  let w := mounted (mkSettings (js "en") (mkService (js "k") []) (mkService [] [])) ∅ in
  step ClickGenerateSummary w = w.
Proof.
  intros w. apply (generate_summary_empty_input w). reflexivity.
Defined.

Lemma summary_button_enabled (a : App) :
  summary_button_disabled a = false <->
  trim (textInput a) <> [] /\ appState a <> GENERATING_SUMMARY
  /\ isConfigMissing a = false.
Proof.
  unfold summary_button_disabled.
  rewrite !orb_false_iff, negb_false_iff, truthy_true.
  assert (AppState_eqb (appState a) GENERATING_SUMMARY = false
          <-> appState a <> GENERATING_SUMMARY) as ->
    by (destruct (appState a); simpl; split; congruence).
  tauto.
Qed.

(** What a click on an enabled "generate summary" button does. *)
Lemma click_generate_summary_enabled (w : World) :
  summary_button_disabled (app w) = false ->
  step ClickGenerateSummary w
  = start_call (Summarizing (textInput (app w)) (settings (app w)))
      (with_app (fun a => setAudioBuffer None
                            (setSummary []
                               (setAppState GENERATING_SUMMARY
                                  (setErrorDetails [] a)))) w).
Proof.
  intros Hd. cbn [step]. rewrite Hd. unfold handleGenerateSummary.
  apply summary_button_enabled in Hd as (Ht & _ & _).
  apply truthy_true in Ht. rewrite Ht. reflexivity.
Qed.

(** C4. From the idle state, "generate summary" leads to
    generating-summary exactly when the article text is not blank and the
    API key is configured ([isConfigMissing] is false); in particular only
    when the text is non-empty. With an empty text or a missing key the
    action changes nothing. *)
Theorem idle_to_generating_summary (w : World) :
  appState (app w) = IDLE ->
  (appState (app (step ClickGenerateSummary w)) = GENERATING_SUMMARY
   <-> trim (textInput (app w)) <> [] /\ isConfigMissing (app w) = false)
  /\ (appState (app (step ClickGenerateSummary w)) = GENERATING_SUMMARY ->
      textInput (app w) <> [] /\ isConfigMissing (app w) = false)
  /\ (textInput (app w) = [] \/ isConfigMissing (app w) = true ->
      step ClickGenerateSummary w = w).
Proof.
  intros Hidle.
  assert (Hiff : appState (app (step ClickGenerateSummary w)) = GENERATING_SUMMARY
                 <-> trim (textInput (app w)) <> [] /\ isConfigMissing (app w) = false).
  { destruct (summary_button_disabled (app w)) eqn:Hd.
    - cbn [step]. rewrite Hd, Hidle. split; [discriminate |].
      intros [Ht Hc].
      assert (summary_button_disabled (app w) = false) as Hd'
        by (apply summary_button_enabled; rewrite Hidle; repeat split;
            [exact Ht | discriminate | exact Hc]).
      congruence.
    - rewrite (click_generate_summary_enabled _ Hd).
      apply summary_button_enabled in Hd as (Ht & _ & Hc).
      split; [intros _; split; assumption | reflexivity]. }
  split; [exact Hiff |]. split.
  - intros H. apply Hiff in H as [Ht Hc]. split; [| exact Hc].
    apply trim_nonempty, Ht.
  - intros [Ht | Hc]; cbn [step]; unfold summary_button_disabled.
    + rewrite Ht. reflexivity.
    + rewrite Hc, !orb_true_r. reflexivity.
Qed.

Lemma idle_to_generating_summary_witness :
  let st := mkSettings (js "en") (mkService (js "k") []) (mkService [] []) in
  let w := step (Change (js "news")) (mounted st ∅) in
  appState (app (step ClickGenerateSummary w)) = GENERATING_SUMMARY.
Proof.
  intros st w.
  apply (proj1 (idle_to_generating_summary w eq_refl)).
  split; [discriminate | reflexivity].
Defined.

(** *** Requests of the same kind *)

Lemma count_snoc (k : Kind) (l : list Pending) (p : Pending) :
  count k (l ++ [p])
  = (count k l + if Kind_eqb (kind_of p) k then 1 else 0)%nat.
Proof.
  induction l as [|q l IH]; simpl.
  - lia.
  - rewrite IH. lia.
Qed.

Lemma count_delete (k : Kind) (l : list Pending) (i : nat) (p : Pending) :
  l !! i = Some p ->
  count k l
  = (count k (delete i l) + if Kind_eqb (kind_of p) k then 1 else 0)%nat.
Proof.
  revert i. induction l as [|q l IH]; intros [|i] H; simpl in *; try discriminate.
  - injection H as ->. lia.
  - rewrite (IH _ H). lia.
Qed.

Lemma fetchFeed_tracks (feedUrl sourceName : jsstring) (w : World) :
  flag_tracks_fetch w -> flag_tracks_fetch (fetchFeed feedUrl sourceName w).
Proof.
  unfold flag_tracks_fetch, fetchFeed. intros H.
  destruct (isFetchingNews (input w)) eqn:E.
  - rewrite E. exact H.
  - unfold outstanding in *. cbn. rewrite count_snoc, H. reflexivity.
Qed.

Lemma on_start_tracks (r : App * option Pending) (w : World) :
  match snd r with Some (Fetching _ _) => False | _ => True end ->
  flag_tracks_fetch w -> flag_tracks_fetch (on_start r w).
Proof.
  unfold flag_tracks_fetch, outstanding. destruct r as [a [p|]]; simpl; intros Hp H.
  - rewrite count_snoc, H. destruct p; simpl; (lia || contradiction).
  - exact H.
Qed.

Lemma step_tracks (e : Event) (w : World) :
  flag_tracks_fetch w -> flag_tracks_fetch (step e w).
Proof.
  intros H.
  destruct e as [value|confirmed| | |u|pick| | |newSettings|i o|i]; cbn [step].
  - destruct (isConfigMissing (app w)); exact H.
  - destruct (truthy (textInput (app w)) && confirmed); exact H.
  - destruct (summary_button_disabled (app w)); [exact H |].
    apply on_start_tracks; [| exact H].
    unfold handleGenerateSummary.
    destruct (negb (truthy (trim (textInput (app w))))); exact I.
  - destruct (audio_button_rendered (app w) && negb (audio_button_disabled (app w)));
      [| exact H].
    apply on_start_tracks; [| exact H].
    unfold handleGenerateAudio.
    destruct (negb (truthy (summary (app w)))); exact I.
  - destruct (isFetchingNews (input w) || isConfigMissing (app w)); [exact H |].
    unfold handleSelectSource.
    destruct (truthy u); [| exact H].
    destruct (find _ SOURCES); [| exact H].
    apply fetchFeed_tracks. exact H.
  - destruct (isFetchingNews (input w) || isConfigMissing (app w)); [exact H |].
    unfold handleRandomSource. apply fetchFeed_tracks. exact H.
  - exact H.
  - exact H.
  - exact H.
  - destruct (inflight w !! i) as [p|] eqn:Hp; [| exact H].
    pose proof (count_delete FeedFetch _ _ _ Hp) as Hd.
    unfold flag_tracks_fetch, outstanding in *.
    destruct p, o; try exact H; cbn [kind_of Kind_eqb] in Hd.
    + cbn. destruct (isFetchingNews (input w)); lia.
    + cbn. destruct (isFetchingNews (input w)); lia.
    + unfold fetchFeed_resume.
      destruct (try_assemble sourceName r); cbn;
        destruct (isFetchingNews (input w)); lia.
  - destruct (timers w !! i) as [t|]; [| exact H].
    destruct t as [d []]. exact H.
Qed.

Lemma run_tracks (evs : list Event) (w : World) :
  flag_tracks_fetch w -> flag_tracks_fetch (run evs w).
Proof.
  revert w. induction evs as [|e evs IH]; intros w H; simpl.
  - exact H.
  - apply IH, step_tracks, H.
Qed.

Lemma reachable_tracks (w : World) : reachable w -> flag_tracks_fetch w.
Proof.
  intros (s & ls & evs & ->). apply run_tracks. reflexivity.
Qed.

Lemma fetch_in_flight_flag (w : World) :
  reachable w -> fetch_in_flight w -> isFetchingNews (input w) = true.
Proof.
  intros Hr (i & u & n & Hp). apply reachable_tracks in Hr.
  unfold flag_tracks_fetch, outstanding in Hr.
  rewrite (count_delete _ _ _ _ Hp) in Hr. simpl in Hr.
  destruct (isFetchingNews (input w)); [reflexivity | lia].
Qed.

Lemma overlap_reachable (evs : list Event) :
  reachable (run evs (mounted a_key ∅)).
Proof. exists a_key, ∅, evs. reflexivity. Qed.

(** A call for speech in flight does not by itself stop a second one.
    There is a page state, reached by clicks and settled calls only, in
    which a synthesis call is in flight and a click on "generate audio"
    starts a second one; and the handler has no flag to consult: called
    while the state is generating-audio, it starts a call. *)
Lemma second_synthesis_starts :
  ~ (forall w : World,
       reachable w -> speech_in_flight w -> step ClickGenerateAudio w = w)
  /\ ~ (forall a : App,
          appState a = GENERATING_AUDIO -> handleGenerateAudio a = (a, None)).
Proof.
  split.
  - intros H.
    specialize (H (run audio_still_pending (mounted a_key ∅))
                  (overlap_reachable _)).
    assert (Hs : speech_in_flight (run audio_still_pending (mounted a_key ∅))).
    { exists 0%nat, (js "S1"), a_key. vm_compute. reflexivity. }
    specialize (H Hs). apply (f_equal (fun w => length (inflight w))) in H.
    vm_compute in H. discriminate H.
  - intros H.
    specialize (H (mkApp (js "news") (js "S1") None GENERATING_AUDIO [] a_key
                         false true) eq_refl).
    apply (f_equal snd) in H. vm_compute in H. discriminate H.
Qed.

(** C3, at its failing input. The first call for speech is still in
    flight when a second summary, started over it, arrives: the page is in
    the ready state with no audio held, so the "generate audio" button is
    rendered and enabled. A click on it starts a second call for speech
    next to the first and moves the page to the generating-audio state.
    The flag of the feed fetcher, in the same situation, holds: see
    [fetch_in_flight_flag]. *)
Theorem second_synthesis_after_overlap :
  let w := run audio_still_pending (mounted a_key ∅) in
  inflight w = [Synthesizing (js "S1") a_key]
  /\ outstanding SpeechSynthesis w = 1%nat
  /\ appState (app w) = READY
  /\ audio_button_rendered (app w) = true
  /\ audio_button_disabled (app w) = false
  /\ inflight (step ClickGenerateAudio w)
     = [Synthesizing (js "S1") a_key; Synthesizing (js "S2") a_key]
  /\ outstanding SpeechSynthesis (step ClickGenerateAudio w) = 2%nat
  /\ appState (app (step ClickGenerateAudio w)) = GENERATING_AUDIO
  /\ step ClickGenerateAudio w <> w.
Proof.
  vm_compute. repeat split; try reflexivity. intros H. discriminate H.
Qed.

(** *** A new summary and the audio held *)

(** A click on an enabled "generate summary" button, in any state of the
    page, empties the summary and drops the audio buffer at once, before
    the summarization call it starts has settled. *)
Lemma generate_summary_clears (w : World) :
  summary_button_disabled (app w) = false ->
  let w' := step ClickGenerateSummary w in
  summary (app w') = []
  /\ audioBuffer (app w') = None
  /\ errorDetails (app w') = []
  /\ appState (app w') = GENERATING_SUMMARY
  /\ inflight w'
     = inflight w ++ [Summarizing (textInput (app w)) (settings (app w))]
  /\ audio_matches_summary (app w').
Proof.
  intros Hd w'. subst w'. rewrite (click_generate_summary_enabled _ Hd).
  repeat split; reflexivity.
Qed.

(** The same at the level of the handler: it clears both whenever the
    article text is not blank. *)
Lemma handleGenerateSummary_clears (a : App) :
  trim (textInput a) <> [] ->
  summary (fst (handleGenerateSummary a)) = []
  /\ audioBuffer (fst (handleGenerateSummary a)) = None
  /\ snd (handleGenerateSummary a)
     = Some (Summarizing (textInput a) (settings a)).
Proof.
  intros Ht. apply truthy_true in Ht. unfold handleGenerateSummary.
  rewrite Ht. repeat split; reflexivity.
Qed.

(** C1, at its failing input. The audio call started for the first summary
    settles after a second summarization has begun: its buffer is stored
    next to the emptied summary, and stays when the second summary arrives.
    The page ends in the ready state showing "S2" with the audio of "S1". *)
Theorem stale_audio_after_overlap :
  let w := run stale_audio (mounted a_key ∅) in
  appState (app w) = READY
  /\ summary (app w) = js "S2"
  /\ audioBuffer (app w) = Some (mkAudio (js "S1") [1%Z; 2%Z])
  /\ ~ audio_matches_summary (app w)
  /\ summary_button_disabled (app (run [Change (js "news");
         ClickGenerateSummary;
         Settle 0 (SummaryOutcome (Fulfilled (js "S1")));
         ClickGenerateAudio] (mounted a_key ∅))) = false.
Proof.
  vm_compute. repeat split; try reflexivity. intros H. discriminate H.
Qed.


(** The scenarios of the specification: a summary arrives, then its audio;
    a second click on "generate audio" in between does nothing. *)
Example summary_arrives :
  let w := run [Change (js "news"); ClickGenerateSummary;
                Settle 0 (SummaryOutcome (Fulfilled (js "Today's news...")))]
               (mounted a_key ∅) in
  appState (app w) = READY /\ summary (app w) = js "Today's news..."
  /\ audioBuffer (app w) = None.
Proof. vm_compute. repeat split. Qed.

Example audio_arrives :
  let evs := [Change (js "news"); ClickGenerateSummary;
              Settle 0 (SummaryOutcome (Fulfilled (js "S1")));
              ClickGenerateAudio] in
  let w := run evs (mounted a_key ∅) in
  step ClickGenerateAudio w = w
  /\ app (step (Settle 0 (SpeechOutcome (Fulfilled [1%Z]))) w)
     = mkApp (js "news") (js "S1") (Some (mkAudio (js "S1") [1%Z])) READY []
             a_key false true.
Proof. vm_compute. repeat split. Qed.

(** *** A rejected call *)






(** *** Runs without a summary started over a pending synthesis *)

Lemma no_synthesis_texts (l : list Pending) (Q : jsstring -> Prop) :
  count SpeechSynthesis l = O ->
  Forall (fun p => match p with
                   | Synthesizing text _ => Q text
                   | _ => True
                   end) l.
Proof.
  induction l as [|p l IH]; intros H; constructor.
  - destruct p; simpl in H; (exact I || discriminate H).
  - apply IH. simpl in H. lia.
Qed.

Lemma count_lookup (k : Kind) (l : list Pending) (i : nat) (p : Pending) :
  l !! i = Some p -> kind_of p = k -> (1 <= count k l)%nat.
Proof.
  intros Hp <-. rewrite (count_delete _ _ _ _ Hp).
  destruct p; simpl; lia.
Qed.

(** Changes that touch neither the summary, the audio, the state nor the
    summarization and synthesis calls keep the invariant. *)
Lemma serial_invariant_frame (w w' : World) :
  summary (app w') = summary (app w) ->
  audioBuffer (app w') = audioBuffer (app w) ->
  appState (app w') = appState (app w) ->
  outstanding Summarization w' = outstanding Summarization w ->
  outstanding SpeechSynthesis w' = outstanding SpeechSynthesis w ->
  (synthesizing_summary w -> synthesizing_summary w') ->
  serial_invariant w -> serial_invariant w'.
Proof.
  intros Hs Ha Hst Hcs Hca Ht [I1 I2 I3 I4]. constructor.
  - unfold audio_matches_summary in *. rewrite Ha, Hs. exact I1.
  - apply Ht, I2.
  - rewrite Hcs, Hca, Hst, Ha. exact I3.
  - rewrite Hca, Hst. exact I4.
Qed.

Lemma fetchFeed_serial (feedUrl sourceName : jsstring) (w : World) :
  serial_invariant w -> serial_invariant (fetchFeed feedUrl sourceName w).
Proof.
  unfold fetchFeed. destruct (isFetchingNews (input w)); [auto |].
  apply serial_invariant_frame; try reflexivity.
  - unfold outstanding. cbn. rewrite count_snoc. simpl. lia.
  - unfold outstanding. cbn. rewrite count_snoc. simpl. lia.
  - unfold synthesizing_summary. cbn. intros H.
    apply Forall_app. split; [exact H |]. repeat constructor.
Qed.

Lemma fetchFeed_resume_serial (sourceName : jsstring) (r : FetchResult)
  (i : nat) (feedUrl n : jsstring) (w : World) :
  inflight w !! i = Some (Fetching feedUrl n) ->
  serial_invariant w ->
  serial_invariant (fetchFeed_resume sourceName r (end_call i w)).
Proof.
  intros Hp. unfold fetchFeed_resume.
  apply serial_invariant_frame;
    try (destruct (try_assemble sourceName r); reflexivity).
  - unfold outstanding. rewrite (count_delete Summarization _ _ _ Hp).
    destruct (try_assemble sourceName r); cbn; lia.
  - unfold outstanding. rewrite (count_delete SpeechSynthesis _ _ _ Hp).
    destruct (try_assemble sourceName r); cbn; lia.
  - unfold synthesizing_summary. intros H.
    destruct (try_assemble sourceName r); cbn; apply Forall_delete, H.
Qed.

Lemma summary_click_serial (w : World) :
  summary_button_disabled (app w) = false ->
  outstanding SpeechSynthesis w = O ->
  serial_invariant w ->
  serial_invariant (step ClickGenerateSummary w).
Proof.
  intros Hd Hca [I1 I2 I3 I4].
  rewrite (click_generate_summary_enabled _ Hd).
  apply summary_button_enabled in Hd as (_ & Hst & _).
  assert (Hcs : outstanding Summarization w = O).
  { destruct (outstanding Summarization w) eqn:E; [reflexivity |].
    destruct I3 as (H & _); [lia | congruence]. }
  unfold outstanding in *. constructor.
  - exact I.
  - unfold synthesizing_summary. cbn. apply no_synthesis_texts.
    rewrite count_snoc. simpl. lia.
  - unfold outstanding. cbn. rewrite !count_snoc. simpl. intros _.
    repeat split; lia.
  - unfold outstanding. cbn. rewrite !count_snoc. simpl. lia.
Qed.

Lemma audio_button_enabled (a : App) :
  audio_button_rendered a && negb (audio_button_disabled a) = true ->
  appState a = READY /\ audioBuffer a = None.
Proof.
  unfold audio_button_rendered, audio_button_disabled.
  destruct (appState a), (audioBuffer a); simpl; intros H;
    try discriminate H; split; reflexivity.
Qed.

Lemma audio_click_serial (w : World) :
  serial_invariant w -> serial_invariant (step ClickGenerateAudio w).
Proof.
  intros Hinv. cbn [step].
  destruct (audio_button_rendered (app w) && negb (audio_button_disabled (app w)))
    eqn:Hb; [| exact Hinv].
  apply audio_button_enabled in Hb as [Hst Ha].
  unfold handleGenerateAudio.
  destruct (negb (truthy (summary (app w)))).
  - revert Hinv. apply serial_invariant_frame; auto.
  - destruct Hinv as [I1 I2 I3 I4].
    assert (Hcs : outstanding Summarization w = O).
    { destruct (outstanding Summarization w) eqn:E; [reflexivity |].
      destruct I3 as (H & _); [lia | congruence]. }
    assert (Hca : outstanding SpeechSynthesis w = O).
    { destruct (outstanding SpeechSynthesis w) eqn:E; [reflexivity |].
      destruct I4 as (H & _); [lia | congruence]. }
    unfold outstanding in *. constructor.
    + exact I1.
    + unfold synthesizing_summary. cbn. apply Forall_app. split; [exact I2 |].
      repeat constructor.
    + unfold outstanding. cbn. rewrite !count_snoc. simpl. lia.
    + unfold outstanding. cbn. rewrite !count_snoc. simpl. intros _.
      split; [reflexivity | lia].
Qed.

Lemma summary_settle_serial (w : World) (i : nat) (text : jsstring)
  (st : AppSettings) (r : Settled jsstring) :
  inflight w !! i = Some (Summarizing text st) ->
  serial_invariant w ->
  serial_invariant (with_app (handleGenerateSummary_resume st r) (end_call i w)).
Proof.
  intros Hp [I1 I2 I3 I4].
  pose proof (count_lookup Summarization _ _ _ Hp eq_refl) as Hge.
  destruct (I3 Hge) as (Hst & Ha & Hca & Hcs).
  pose proof (count_delete Summarization _ _ _ Hp) as Hd1.
  pose proof (count_delete SpeechSynthesis _ _ _ Hp) as Hd2.
  unfold outstanding in *. cbn in Hd1, Hd2.
  constructor.
  - unfold audio_matches_summary. destruct r as [value | [| e]]; cbn; rewrite Ha; exact I.
  - unfold synthesizing_summary. cbn. apply no_synthesis_texts. lia.
  - unfold outstanding. cbn. lia.
  - unfold outstanding. cbn. lia.
Qed.

Lemma speech_settle_serial (w : World) (i : nat) (text : jsstring)
  (st : AppSettings) (r : Settled (list Z)) :
  inflight w !! i = Some (Synthesizing text st) ->
  serial_invariant w ->
  serial_invariant (with_app (handleGenerateAudio_resume st text r) (end_call i w)).
Proof.
  intros Hp [I1 I2 I3 I4].
  pose proof (count_lookup SpeechSynthesis _ _ _ Hp eq_refl) as Hge.
  destruct (I4 Hge) as (Hst & Hca).
  pose proof (Forall_lookup_1 _ _ _ _ I2 Hp) as Htext. cbn in Htext.
  pose proof (count_delete Summarization _ _ _ Hp) as Hd1.
  pose proof (count_delete SpeechSynthesis _ _ _ Hp) as Hd2.
  unfold outstanding in *. cbn in Hd1, Hd2.
  assert (Hcs : count Summarization (inflight w) = O).
  { destruct (count Summarization (inflight w)) eqn:E; [reflexivity |].
    destruct I3 as (_ & _ & H & _); lia. }
  constructor.
  - unfold audio_matches_summary in *.
    destruct r as [value | [| e]]; cbn; [exact Htext | exact I1 | exact I1].
  - unfold synthesizing_summary. cbn. apply no_synthesis_texts. lia.
  - unfold outstanding. cbn. lia.
  - unfold outstanding. cbn. lia.
Qed.

Lemma step_serial (e : Event) (w : World) :
  (e = ClickGenerateSummary -> outstanding SpeechSynthesis w = O) ->
  serial_invariant w -> serial_invariant (step e w).
Proof.
  intros Hser Hinv.
  destruct e as [value|confirmed| | |u|pick| | |newSettings|i o|i]; cbn [step].
  - destruct (isConfigMissing (app w)); [exact Hinv |].
    revert Hinv. apply serial_invariant_frame; auto.
  - destruct (truthy (textInput (app w)) && confirmed); [| exact Hinv].
    revert Hinv. apply serial_invariant_frame; auto.
  - destruct (summary_button_disabled (app w)) eqn:Hd; [exact Hinv |].
    pose proof (summary_click_serial w Hd (Hser eq_refl) Hinv) as H.
    cbn [step] in H. rewrite Hd in H. exact H.
  - apply (audio_click_serial w Hinv).
  - destruct (isFetchingNews (input w) || isConfigMissing (app w)); [exact Hinv |].
    unfold handleSelectSource.
    assert (Hsel : serial_invariant (with_input (set_selectedSourceUrl u) w))
      by (revert Hinv; apply serial_invariant_frame; auto).
    destruct (truthy u); [| exact Hsel].
    destruct (find _ SOURCES); [| exact Hsel].
    apply fetchFeed_serial, Hsel.
  - destruct (isFetchingNews (input w) || isConfigMissing (app w)); [exact Hinv |].
    unfold handleRandomSource. apply fetchFeed_serial.
    revert Hinv. apply serial_invariant_frame; auto.
  - revert Hinv. apply serial_invariant_frame; auto.
  - revert Hinv. apply serial_invariant_frame; auto.
  - revert Hinv. apply serial_invariant_frame; auto.
  - destruct (inflight w !! i) as [p|] eqn:Hp; [| exact Hinv].
    destruct p, o; try exact Hinv.
    + apply (summary_settle_serial _ _ _ _ _ Hp Hinv).
    + apply (speech_settle_serial _ _ _ _ _ Hp Hinv).
    + apply (fetchFeed_resume_serial _ _ _ _ _ _ Hp Hinv).
  - destruct (timers w !! i) as [t|]; [| exact Hinv].
    destruct t as [d []]. revert Hinv. apply serial_invariant_frame; auto.
Qed.

Lemma mounted_serial (s : AppSettings) (ls : Storage) :
  serial_invariant (mounted s ls).
Proof.
  constructor.
  - exact I.
  - constructor.
  - cbn. lia.
  - cbn. lia.
Qed.

Lemma run_serial (evs : list Event) (w : World) :
  serial evs w -> serial_invariant w -> serial_invariant (run evs w).
Proof.
  revert w. induction evs as [|e evs IH]; intros w Hs Hinv; simpl.
  - exact Hinv.
  - destruct Hs as [He Hs]. apply IH; [exact Hs |].
    apply step_serial; assumption.
Qed.

(** As long as "generate summary" is not clicked while a call for speech is
    in flight, the audio held was synthesized from the summary held, a
    pending summarization shows as generating-summary and a pending
    synthesis as generating-audio, and there is at most one of each. *)
Theorem serial_run_invariant (s : AppSettings) (ls : Storage)
  (evs : list Event) :
  serial evs (mounted s ls) ->
  serial_invariant (run evs (mounted s ls)).
Proof. intros H. apply (run_serial _ _ H), mounted_serial. Qed.

(** The run of the first scenario up to the second click is serial; the
    second click is what the invariant excludes. *)
Example overlap_not_serial : ~ serial overlap (mounted a_key ∅).
Proof.
  unfold overlap. cbn [serial]. intros (_ & _ & _ & _ & H & _).
  specialize (H eq_refl). vm_compute in H. discriminate H.
Qed.

(** What does hold of the three kinds of call. While a feed call is in
    flight the [isFetchingNews] flag is set: calling [fetchFeed] then, or
    using either source control, changes nothing. The summary and audio
    actions have no flag; their buttons are disabled while the application
    state is generating-summary, respectively generating-audio, and a click
    then starts no call and changes nothing. On a run in which "generate
    summary" is never clicked while a call for speech is in flight, that
    state lasts as long as the call, so that a click while a call of the
    same kind is in flight starts no second call and changes nothing. *)
Lemma same_kind_guards :
  (forall (w : World) (feedUrl sourceName : jsstring),
     reachable w -> fetch_in_flight w ->
     isFetchingNews (input w) = true
     /\ fetchFeed feedUrl sourceName w = w
     /\ step (SelectSource feedUrl) w = w
     /\ forall pick, step (RandomSource pick) w = w)
  /\ (forall w : World,
        appState (app w) = GENERATING_SUMMARY ->
        step ClickGenerateSummary w = w)
  /\ (forall w : World,
        appState (app w) = GENERATING_AUDIO ->
        step ClickGenerateAudio w = w)
  /\ (forall (s : AppSettings) (ls : Storage) (evs : list Event),
        serial evs (mounted s ls) ->
        let w := run evs (mounted s ls) in
        ((1 <= outstanding Summarization w)%nat ->
         step ClickGenerateSummary w = w)
        /\ ((1 <= outstanding SpeechSynthesis w)%nat ->
            step ClickGenerateAudio w = w)).
Proof.
  assert (Hsum : forall w : World,
             appState (app w) = GENERATING_SUMMARY ->
             step ClickGenerateSummary w = w).
  { intros w Hs. cbn [step]. unfold summary_button_disabled.
    rewrite Hs. cbn. rewrite orb_true_r. reflexivity. }
  assert (Haud : forall w : World,
             appState (app w) = GENERATING_AUDIO ->
             step ClickGenerateAudio w = w).
  { intros w Hs. cbn [step]. unfold audio_button_disabled.
    rewrite Hs. cbn. rewrite andb_false_r. reflexivity. }
  split; [| split; [exact Hsum | split; [exact Haud |]]].
  - intros w feedUrl sourceName Hr Hf.
    pose proof (fetch_in_flight_flag w Hr Hf) as Hflag.
    split; [exact Hflag |]. split; [| split].
    + unfold fetchFeed. rewrite Hflag. reflexivity.
    + cbn [step]. rewrite Hflag. reflexivity.
    + intros pick. cbn [step]. rewrite Hflag. reflexivity.
  - intros s ls evs Hser w.
    destruct (serial_run_invariant s ls evs Hser) as [_ _ I3 I4].
    split; intros H.
    + apply Hsum. apply (I3 H).
    + apply Haud. apply (I4 H).
Qed.

Lemma same_kind_guards_witness :
  let w1 := run [SelectSource (js "https://36kr.com/feed")] (mounted a_key ∅) in
  let evs := [Change (js "news"); ClickGenerateSummary;
              Settle 0 (SummaryOutcome (Fulfilled (js "S1")));
              ClickGenerateAudio] in
  let w3 := run evs (mounted a_key ∅) in
  step (RandomSource 3) w1 = w1
  /\ step ClickGenerateAudio w3 = w3.
Proof.
  intros w1 evs w3.
  destruct same_kind_guards as (Hf & _ & _ & Hser).
  split.
  - refine (proj2 (proj2 (proj2 (Hf w1 [] [] (overlap_reachable _) _))) 3%nat).
    exists 0%nat, (js "https://36kr.com/feed"), (js "36Kr (商业)").
    vm_compute. reflexivity.
  - refine (proj2 (Hser a_key ∅ evs _) _).
    + cbn [serial evs].
      repeat split; (discriminate || (intros _; vm_compute; reflexivity)).
    + vm_compute. lia.
Defined.


(** ** JSON texts *)

Lemma hex_value_digit (d : N) : d < 16 -> hex_value (hex_digit d) = Some d.
Proof.
  intros H.
  assert (d = 0 \/ d = 1 \/ d = 2 \/ d = 3 \/ d = 4 \/ d = 5 \/ d = 6 \/ d = 7
          \/ d = 8 \/ d = 9 \/ d = 10 \/ d = 11 \/ d = 12 \/ d = 13 \/ d = 14
          \/ d = 15) as E by lia.
  repeat (destruct E as [-> | E]; [reflexivity |]). subst d. reflexivity.
Qed.

Lemma hex4_unicode (c : N) :
  c < 65536 ->
  hex4 (hex_digit (c / 4096 mod 16)) (hex_digit (c / 256 mod 16))
       (hex_digit (c / 16 mod 16)) (hex_digit (c mod 16)) = Some c.
Proof.
  intros H. unfold hex4.
  rewrite !hex_value_digit by (apply N.mod_lt; discriminate).
  f_equal.
  replace (c / 4096) with (c / 16 / 16 / 16) by (rewrite !N.Div0.div_div; reflexivity).
  replace (c / 256) with (c / 16 / 16) by (rewrite !N.Div0.div_div; reflexivity).
  pose proof (N.div_mod c 16). pose proof (N.div_mod (c / 16) 16).
  pose proof (N.div_mod (c / 16 / 16) 16).
  pose proof (N.div_mod (c / 16 / 16 / 16) 16).
  pose proof (N.mod_lt c 16). pose proof (N.mod_lt (c / 16) 16).
  pose proof (N.mod_lt (c / 16 / 16) 16).
  pose proof (N.mod_lt (c / 16 / 16 / 16) 16).
  generalize dependent (c mod 16). generalize dependent (c / 16 mod 16).
  generalize dependent (c / 16 / 16 mod 16).
  generalize dependent (c / 16 / 16 / 16 mod 16).
  generalize dependent (c / 16 / 16 / 16 / 16).
  generalize dependent (c / 16 / 16 / 16).
  generalize dependent (c / 16 / 16). generalize dependent (c / 16).
  intros. lia.
Qed.

Lemma parse_chars_escape (c : N) (r : jsstring) :
  c < 65536 ->
  parse_chars (unicode_escape c ++ r) = cons_char c (parse_chars r).
Proof.
  intros H. unfold unicode_escape.
  change (parse_chars ([0x5C; 0x75; hex_digit (c / 4096 mod 16);
                        hex_digit (c / 256 mod 16); hex_digit (c / 16 mod 16);
                        hex_digit (c mod 16)] ++ r))
    with (match hex4 (hex_digit (c / 4096 mod 16)) (hex_digit (c / 256 mod 16))
                     (hex_digit (c / 16 mod 16)) (hex_digit (c mod 16)) with
          | Some u => cons_char u (parse_chars r)
          | None => None
          end).
  rewrite (hex4_unicode c H). reflexivity.
Qed.

Lemma parse_chars_plain (c : N) (r : jsstring) :
  c <> 0x22 -> c <> 0x5C -> 0x20 <= c ->
  parse_chars (c :: r) = cons_char c (parse_chars r).
Proof.
  intros H1 H2 H3. cbn [parse_chars].
  apply N.eqb_neq in H1, H2. apply N.ltb_ge in H3.
  rewrite H1, H2, H3. reflexivity.
Qed.

Lemma parse_chars_unit (c : N) (r : jsstring) :
  parse_chars (quote_unit c ++ r) = cons_char c (parse_chars r).
Proof.
  unfold quote_unit.
  repeat match goal with
         | |- context [?x =? ?y] =>
           destruct (N.eqb_spec x y) as [-> | ?]; [reflexivity |]
         end.
  destruct (N.ltb_spec c 0x20).
  - apply parse_chars_escape. lia.
  - apply parse_chars_plain; assumption.
Qed.

Lemma surrogate_bound (c : N) :
  is_high_surrogate c = true \/ is_low_surrogate c = true ->
  c < 65536 /\ c <> 0x22 /\ c <> 0x5C /\ 0x20 <= c.
Proof.
  unfold is_high_surrogate, is_low_surrogate.
  rewrite !andb_true_iff, !N.leb_le. lia.
Qed.

Lemma parse_quote_chars (s rest : jsstring) :
  parse_chars (quote_chars s ++ 0x22 :: rest) = Some (s, rest).
Proof.
  remember (length s) as n eqn:Hn.
  revert s Hn. induction n as [n IH] using lt_wf_ind. intros s Hn.
  destruct s as [|c r]; [reflexivity |].
  cbn [quote_chars].
  assert (IHr : parse_chars (quote_chars r ++ 0x22 :: rest) = Some (r, rest)).
  { apply (IH (length r)); [subst n; simpl; lia | reflexivity]. }
  destruct (is_high_surrogate c) eqn:Hh.
  - destruct (surrogate_bound c (or_introl Hh)) as (Hc1 & Hc2 & Hc3 & Hc4).
    destruct r as [|d r'].
    + rewrite parse_chars_escape by exact Hc1. reflexivity.
    + destruct (is_low_surrogate d) eqn:Hl.
      * destruct (surrogate_bound d (or_intror Hl)) as (Hd1 & Hd2 & Hd3 & Hd4).
        cbn [Datatypes.app]. rewrite parse_chars_plain by assumption.
        rewrite parse_chars_plain by assumption.
        rewrite (IH (length r')); [reflexivity | subst n; simpl; lia | reflexivity].
      * rewrite <- app_assoc, parse_chars_escape by exact Hc1.
        rewrite IHr. reflexivity.
  - destruct (is_low_surrogate c) eqn:Hl.
    + destruct (surrogate_bound c (or_intror Hl)) as (Hc1 & _).
      rewrite <- app_assoc, parse_chars_escape by exact Hc1.
      rewrite IHr. reflexivity.
    + rewrite <- app_assoc, parse_chars_unit, IHr. reflexivity.
Qed.
Lemma size_JArray (l : list json) : size (JArray l) = S (size_elements l).
Proof.
  assert (H : forall l : list json,
             (fix elements (l : list json) : nat :=
                match l with
                | [] => O
                | x :: l' => S (size x + elements l')
                end) l = size_elements l).
  { induction l0 as [|x l0 IH]; [reflexivity |]. simpl. rewrite IH. reflexivity. }
  simpl. rewrite H. reflexivity.
Qed.

Lemma size_JObject (m : list (jsstring * json)) :
  size (JObject m) = S (size_members m).
Proof.
  assert (H : forall m : list (jsstring * json),
             (fix members (m : list (jsstring * json)) : nat :=
                match m with
                | [] => O
                | (_, x) :: m' => S (size x + members m')
                end) m = size_members m).
  { induction m0 as [|[k x] m0 IH]; [reflexivity |]. simpl. rewrite IH. reflexivity. }
  simpl. rewrite H. reflexivity.
Qed.

Lemma well_formed_JArray (l : list json) :
  well_formed (JArray l) = forallb well_formed l.
Proof.
  assert (H : forall l : list json,
             (fix elements (l : list json) : bool :=
                match l with
                | [] => true
                | x :: l' => well_formed x && elements l'
                end) l = forallb well_formed l).
  { induction l0 as [|x l0 IH]; [reflexivity |]. simpl. rewrite IH. reflexivity. }
  simpl. rewrite H. reflexivity.
Qed.

Lemma well_formed_JObject (m : list (jsstring * json)) :
  well_formed (JObject m)
  = distinct_keys m && plain_keys m
    && forallb (fun kv => well_formed (snd kv)) m.
Proof.
  assert (H : forall m : list (jsstring * json),
             (fix members (m : list (jsstring * json)) : bool :=
                match m with
                | [] => true
                | (_, x) :: m' => well_formed x && members m'
                end) m = forallb (fun kv => well_formed (snd kv)) m).
  { induction m0 as [|[k x] m0 IH]; [reflexivity |]. simpl. rewrite IH. reflexivity. }
  simpl. rewrite H. reflexivity.
Qed.

Lemma size_positive (v : json) : (1 <= size v)%nat.
Proof. destruct v; simpl; lia. Qed.

(** The text of a value never starts with white space, nor with the bracket
    that closes an array. *)
Lemma stringify_head (v : json) (rest : jsstring) :
  well_formed v = true ->
  exists c t, stringify v ++ rest = c :: t
              /\ is_json_ws c = false /\ (c =? 0x5D) = false.
Proof.
  intros Hwf.
  destruct v as [|[]|n|s|l|m]; [| | | discriminate Hwf | | |];
    eexists _, _; (split; [reflexivity |]); split; reflexivity.
Qed.

Lemma str_eqb_sym (a b : jsstring) : str_eqb a b = str_eqb b a.
Proof.
  destruct (str_eqb a b) eqn:E.
  - apply str_eqb_eq in E as ->. symmetry. apply str_eqb_refl.
  - destruct (str_eqb b a) eqn:E'; [| reflexivity].
    apply str_eqb_eq in E' as ->. rewrite str_eqb_refl in E. discriminate.
Qed.

Lemma obj_get_fresh (k : jsstring) (m : list (jsstring * json)) :
  fresh k m = true -> obj_get k m = None.
Proof.
  induction m as [|[k' v'] m IH]; simpl; [reflexivity |].
  rewrite andb_true_iff, negb_true_iff. intros [-> H]. apply IH, H.
Qed.

Lemma fresh_obj_get (k : jsstring) (m : list (jsstring * json)) :
  obj_get k m = None -> fresh k m = true.
Proof.
  induction m as [|[k' v'] m IH]; simpl; [reflexivity |].
  destruct (str_eqb k' k); [discriminate |]. exact IH.
Qed.

(** A new key that is no array index is listed last. *)
Lemma obj_set_fresh (k : jsstring) (v : json) (m : list (jsstring * json)) :
  fresh k m = true -> array_index k = None -> obj_set k v m = m ++ [(k, v)].
Proof.
  intros Hf Hi. unfold obj_set. rewrite (obj_get_fresh _ _ Hf), Hi. reflexivity.
Qed.

Lemma fresh_app (k : jsstring) (a b : list (jsstring * json)) :
  fresh k (a ++ b) = fresh k a && fresh k b.
Proof.
  induction a as [|[k' v'] a IH]; simpl; [reflexivity |].
  rewrite IH, andb_assoc. reflexivity.
Qed.

Lemma distinct_keys_middle (acc m : list (jsstring * json))
  (k : jsstring) (x : json) :
  distinct_keys (acc ++ (k, x) :: m) = true -> fresh k acc = true.
Proof.
  induction acc as [|[k' v'] acc IH]; simpl; [reflexivity |].
  rewrite !andb_true_iff, fresh_app. simpl.
  rewrite !andb_true_iff, !negb_true_iff.
  intros [(_ & Hk & _) Hd]. rewrite str_eqb_sym, Hk. auto.
Qed.

Lemma join_cons (sep p : jsstring) (q : jsstring) (l : list jsstring) :
  join sep (p :: q :: l) = p ++ sep ++ join sep (q :: l).
Proof. reflexivity. Qed.

Lemma stringify_JObject (m : list (jsstring * json)) :
  stringify (JObject m) = 0x7B :: join [0x2C] (map member_text m) ++ [0x7D].
Proof.
  cbn [stringify]. do 3 f_equal. apply map_ext. intros [k x]. reflexivity.
Qed.

Lemma stringify_JArray (l : list json) :
  stringify (JArray l) = 0x5B :: join [0x2C] (map stringify l) ++ [0x5D].
Proof. reflexivity. Qed.

Lemma join_continuation (close : N) (p : jsstring) (parts : list jsstring)
  (rest : jsstring) :
  join [0x2C] (p :: parts) ++ close :: rest
  = p ++ continuation close parts rest.
Proof.
  destruct parts as [|q parts]; [reflexivity |].
  rewrite join_cons, <- !app_assoc. reflexivity.
Qed.

Lemma parse_value_string (f : nat) (s rest : jsstring) :
  parse_value (S f) (QuoteJSONString s ++ rest) = Some (JString s, rest).
Proof.
  unfold QuoteJSONString. rewrite <- app_comm_cons, <- app_assoc.
  change (parse_value (S f) (0x22 :: quote_chars s ++ [0x22] ++ rest))
    with (match parse_chars (quote_chars s ++ 0x22 :: rest) with
          | Some (str, r') => Some (JString str, r')
          | None => None
          end).
  rewrite parse_quote_chars. reflexivity.
Qed.

Lemma parse_members_member (f : nat) (k : jsstring) (x : json)
  (acc : list (jsstring * json)) (t : jsstring) (c3 : N) (t4 : jsstring) :
  parse_value f t = Some (x, c3 :: t4) ->
  is_json_ws c3 = false ->
  parse_members (S f) (QuoteJSONString k ++ 0x3A :: t) acc
  = if c3 =? 0x2C then parse_members f t4 (obj_set k x acc)
    else if c3 =? 0x7D then Some (JObject (obj_set k x acc), t4)
    else None.
Proof.
  intros Hv Hws.
  unfold QuoteJSONString. rewrite <- app_comm_cons, <- app_assoc.
  change (parse_members (S f) (0x22 :: quote_chars k ++ [0x22] ++ 0x3A :: t) acc)
    with (match parse_chars (quote_chars k ++ 0x22 :: 0x3A :: t) with
          | Some (k, r1) =>
            match skip_ws r1 with
            | c1 :: r2 =>
              if c1 =? 0x3A then
                match parse_value f r2 with
                | Some (v, r3) =>
                  match skip_ws r3 with
                  | c3 :: r4 =>
                    if c3 =? 0x2C then parse_members f r4 (obj_set k v acc)
                    else if c3 =? 0x7D then Some (JObject (obj_set k v acc), r4)
                    else None
                  | [] => None
                  end
                | None => None
                end
              else None
            | [] => None
            end
          | None => None
          end).
  rewrite parse_quote_chars.
  change (skip_ws (0x3A :: t)) with (0x3A :: t).
  change (0x3A =? 0x3A) with true. cbv iota.
  rewrite Hv. cbn [skip_ws]. rewrite Hws. reflexivity.
Qed.

Lemma parse_elements_element (f : nat) (x : json) (acc : list json)
  (t : jsstring) (c3 : N) (t4 : jsstring) :
  parse_value f t = Some (x, c3 :: t4) ->
  is_json_ws c3 = false ->
  parse_elements (S f) t acc
  = if c3 =? 0x2C then parse_elements f t4 (acc ++ [x])
    else if c3 =? 0x5D then Some (JArray (acc ++ [x]), t4)
    else None.
Proof.
  intros Hv Hws. cbn [parse_elements]. rewrite Hv.
  cbn [skip_ws]. rewrite Hws. reflexivity.
Qed.

Lemma continuation_head (close : N) (parts : list jsstring) (rest : jsstring) :
  is_json_ws close = false ->
  exists c3 t4, continuation close parts rest = c3 :: t4
                /\ is_json_ws c3 = false.
Proof.
  intros H. destruct parts; eexists _, _; (split; [reflexivity |]);
    [exact H | reflexivity].
Qed.

Lemma parse_value_array (f : nat) (c : N) (t : jsstring) :
  is_json_ws c = false -> (c =? 0x5D) = false ->
  parse_value (S f) (0x5B :: c :: t) = parse_elements f (c :: t) [].
Proof.
  intros Hws Hc.
  change (parse_value (S f) (0x5B :: c :: t))
    with (match skip_ws (c :: t) with
          | c' :: r' =>
            if c' =? 0x5D then Some (JArray [], r')
            else parse_elements f (c' :: r') []
          | [] => None
          end).
  cbn [skip_ws]. rewrite Hws, Hc. reflexivity.
Qed.

Lemma parse_value_object (f : nat) (t : jsstring) :
  parse_value (S f) (0x7B :: 0x22 :: t) = parse_members f (0x22 :: t) [].
Proof. reflexivity. Qed.

(** Reading back what [stringify] wrote, with enough fuel: a value, the
    members of an object after those already read, the elements of an
    array after those already read. *)
Lemma parse_stringify_fuel (fuel : nat) :
  (forall (v : json) (rest : jsstring),
     well_formed v = true -> (size v <= fuel)%nat ->
     parse_value fuel (stringify v ++ rest) = Some (v, rest))
  /\ (forall (m acc : list (jsstring * json)) (rest : jsstring),
        m <> [] ->
        forallb (fun kv => well_formed (snd kv)) m = true ->
        distinct_keys (acc ++ m) = true ->
        plain_keys m = true ->
        (size_members m <= fuel)%nat ->
        parse_members fuel (join [0x2C] (map member_text m) ++ 0x7D :: rest) acc
        = Some (JObject (acc ++ m), rest))
  /\ (forall (l acc : list json) (rest : jsstring),
        l <> [] ->
        forallb well_formed l = true ->
        (size_elements l <= fuel)%nat ->
        parse_elements fuel (join [0x2C] (map stringify l) ++ 0x5D :: rest) acc
        = Some (JArray (acc ++ l), rest)).
Proof.
  induction fuel as [|f (IHv & IHm & IHe)].
  - split; [| split].
    + intros v rest _ H. pose proof (size_positive v). lia.
    + intros [|[k x] m] acc rest Hne _ _ _ H; [congruence | simpl in H; lia].
    + intros [|x l] acc rest Hne _ H; [congruence | simpl in H; lia].
  - split; [| split].
    + intros v rest Hwf Hsz. destruct v as [|[]|n|s|[|x l]|[|[k x] m]].
      * reflexivity.
      * reflexivity.
      * reflexivity.
      * discriminate Hwf.
      * apply parse_value_string.
      * reflexivity.
      * rewrite stringify_JArray, <- app_comm_cons, <- app_assoc.
        rewrite size_JArray in Hsz. rewrite well_formed_JArray in Hwf.
        change ([0x5D] ++ rest) with (0x5D :: rest).
        assert (He := IHe (x :: l) [] rest ltac:(discriminate) Hwf ltac:(lia)).
        cbn [map] in *. rewrite join_continuation in *.
        assert (Hx : well_formed x = true)
          by (cbn [forallb] in Hwf; apply andb_true_iff in Hwf as [Hx _]; exact Hx).
        destruct (stringify_head x (continuation 0x5D (map stringify l) rest) Hx)
          as (c & t & Ht & Hws & Hc).
        rewrite Ht in *. rewrite (parse_value_array f c t Hws Hc). exact He.
      * reflexivity.
      * rewrite stringify_JObject, <- app_comm_cons, <- app_assoc.
        rewrite size_JObject in Hsz. rewrite well_formed_JObject in Hwf.
        apply andb_true_iff in Hwf as [Hd Hwf].
        apply andb_true_iff in Hd as [Hd Hp].
        change ([0x7D] ++ rest) with (0x7D :: rest).
        assert (Hm := IHm ((k, x) :: m) [] rest ltac:(discriminate) Hwf Hd Hp
                          ltac:(lia)).
        cbn [map] in *. rewrite join_continuation in *.
        unfold member_text at 1. unfold member_text at 1 in Hm.
        unfold QuoteJSONString at 1. unfold QuoteJSONString at 1 in Hm.
        cbn [fst snd Datatypes.app] in *.
        rewrite parse_value_object. exact Hm.
    + intros m acc rest Hne Hwf Hd Hp Hsz.
      destruct m as [|[k x] m]; [congruence |].
      assert (Hk : array_index k = None).
      { cbn [plain_keys forallb fst] in Hp. apply andb_true_iff in Hp as [Hk _].
        destruct (array_index k); [discriminate | reflexivity]. }
      assert (Hp' : plain_keys m = true).
      { cbn [plain_keys forallb] in Hp. apply andb_true_iff in Hp as [_ Hp].
        exact Hp. }
      cbn [map]. rewrite join_continuation.
      unfold member_text at 1. cbn [fst snd].
      rewrite <- app_assoc, <- app_comm_cons.
      cbn [forallb snd] in Hwf. apply andb_true_iff in Hwf as [Hx Hwf].
      cbn [size_members fold_right snd] in Hsz.
      fold (size_members m) in Hsz.
      pose proof (distinct_keys_middle _ _ _ _ Hd) as Hfresh.
      destruct m as [|kx m].
      * rewrite (parse_members_member f k x acc _ 0x7D rest);
          [| apply IHv; [exact Hx | lia] | reflexivity].
        cbn. rewrite (obj_set_fresh _ _ _ Hfresh Hk). reflexivity.
      * rewrite (parse_members_member f k x acc _ 0x2C
                   (join [0x2C] (map member_text (kx :: m)) ++ 0x7D :: rest));
          [| apply IHv; [exact Hx | lia] | reflexivity].
        cbn [N.eqb Pos.eqb]. rewrite (obj_set_fresh _ _ _ Hfresh Hk).
        rewrite (IHm (kx :: m) (acc ++ [(k, x)]) rest);
          [ rewrite <- app_assoc; reflexivity
          | discriminate
          | exact Hwf
          | rewrite <- app_assoc; exact Hd
          | exact Hp'
          | lia ].
    + intros l acc rest Hne Hwf Hsz.
      destruct l as [|x l]; [congruence |].
      cbn [map]. rewrite join_continuation.
      cbn [forallb] in Hwf. apply andb_true_iff in Hwf as [Hx Hwf].
      cbn [size_elements fold_right] in Hsz. fold (size_elements l) in Hsz.
      destruct l as [|y l].
      * rewrite (parse_elements_element f x acc _ 0x5D rest);
          [| apply IHv; [exact Hx | lia] | reflexivity].
        reflexivity.
      * rewrite (parse_elements_element f x acc _ 0x2C
                   (join [0x2C] (map stringify (y :: l)) ++ 0x5D :: rest));
          [| apply IHv; [exact Hx | lia] | reflexivity].
        cbn [N.eqb Pos.eqb].
        rewrite (IHe (y :: l) (acc ++ [x]) rest);
          [ rewrite <- app_assoc; reflexivity
          | discriminate
          | exact Hwf
          | lia ].
Qed.

(** Induction on a value, with the property available for the elements of
    an array and for the values of an object. *)
Lemma json_nested_ind (P : json -> Prop) :
  P JNull ->
  (forall b, P (JBool b)) ->
  (forall n, P (JNumber n)) ->
  (forall s, P (JString s)) ->
  (forall l, Forall P l -> P (JArray l)) ->
  (forall m, Forall (fun kv => P (snd kv)) m -> P (JObject m)) ->
  forall v, P v.
Proof.
  intros Hn Hb Hnum Hs Ha Ho. fix IH 1. intros [|b|n|s|l|m].
  - exact Hn.
  - apply Hb.
  - apply Hnum.
  - apply Hs.
  - apply Ha. induction l as [|x l IHl]; constructor; [apply IH | exact IHl].
  - apply Ho. induction m as [|[k x] m IHm]; constructor; [apply IH | exact IHm].
Qed.

Lemma size_join {A : Type} (f : A -> jsstring) (sz : A -> nat) (l : list A) :
  Forall (fun a => (sz a <= length (f a))%nat) l ->
  (fold_right (fun a n => S (sz a + n)) O l
   <= length (join [0x2C%N] (map f l)) + 1)%nat.
Proof.
  induction 1 as [|a l Ha Hl IH]; [simpl; lia |].
  destruct l as [|b l].
  - simpl. lia.
  - cbn [map] in *. rewrite join_cons, !length_app.
    cbn [fold_right length] in *. lia.
Qed.

(** The fuel [JSON_parse] supplies is enough for any text [stringify]
    writes. *)
Lemma size_le_length (v : json) :
  well_formed v = true -> (size v <= length (stringify v))%nat.
Proof.
  induction v as [|b|n|s|l IH|m IH] using json_nested_ind; intros Hwf.
  - simpl. lia.
  - destruct b; simpl; lia.
  - discriminate Hwf.
  - simpl. lia.
  - rewrite size_JArray, stringify_JArray.
    rewrite well_formed_JArray in Hwf.
    assert (IH' : Forall (fun x => (size x <= length (stringify x))%nat) l).
    { revert Hwf. induction IH as [|x l Hx _ IHl]; intros Hwf; constructor;
        cbn [forallb] in Hwf; apply andb_true_iff in Hwf as [H1 H2]; auto. }
    pose proof (size_join stringify size l IH') as H.
    fold (size_elements l) in H.
    cbn [length]. rewrite length_app. simpl length. lia.
  - rewrite size_JObject, stringify_JObject.
    rewrite well_formed_JObject in Hwf. apply andb_true_iff in Hwf as [_ Hwf].
    assert (IH' : Forall (fun kv => (size (snd kv) <= length (member_text kv))%nat) m).
    { revert Hwf. induction IH as [|[k x] m Hx _ IHm]; intros Hwf; constructor;
        cbn [forallb snd] in Hwf; apply andb_true_iff in Hwf as [H1 H2]; auto.
      unfold member_text. cbn [fst snd] in *. rewrite length_app. cbn [length].
      specialize (Hx H1). lia. }
    pose proof (size_join member_text (fun kv => size (snd kv)) m IH') as H.
    unfold size_members. cbn beta in H.
    cbn [length]. rewrite length_app. simpl length. lia.
Qed.

(** [JSON.parse(JSON.stringify(v))] gives [v] back, for every value made
    of strings, booleans, [null], arrays and objects whose keys are distinct
    and are no array indices. *)
Lemma JSON_parse_stringify (v : json) :
  well_formed v = true -> JSON_parse (stringify v) = Some v.
Proof.
  intros Hwf. unfold JSON_parse.
  pose proof (size_le_length v Hwf) as Hsz.
  destruct (parse_stringify_fuel (2 * length (stringify v) + 2)) as (Hv & _ & _).
  specialize (Hv v [] Hwf ltac:(lia)). rewrite app_nil_r in Hv.
  rewrite Hv. reflexivity.
Qed.

(** *** The fuel is enough

    Whatever [parse_value] reads with some fuel, it reads with twice the
    number of characters it takes; so [JSON_parse] never fails for want
    of fuel. *)

Lemma skip_ws_length (s : jsstring) : (length (skip_ws s) <= length s)%nat.
Proof.
  induction s as [|c s IH]; simpl; [lia |].
  destruct (is_json_ws c); simpl; lia.
Qed.

Lemma cons_char_Some (c : N) (x : option (jsstring * jsstring))
  (str r : jsstring) :
  cons_char c x = Some (str, r) -> exists str', x = Some (str', r).
Proof.
  destruct x as [[a b]|]; simpl; [| discriminate].
  intros H. injection H as _ <-. eauto.
Qed.

Lemma parse_chars_length (s str r : jsstring) :
  parse_chars s = Some (str, r) -> (length r < length s)%nat.
Proof.
  remember (length s) as n eqn:Hn. revert s str r Hn.
  induction n as [n IH] using lt_wf_ind. intros s str r Hn H.
  destruct s as [|c t]; [discriminate H |]. cbn [parse_chars] in H.
  cbn [length] in Hn.
  destruct (c =? 0x22); [injection H as _ <-; lia |].
  destruct (c =? 0x5C).
  - destruct t as [|e r1]; [discriminate H |]. cbn [length] in Hn.
    destruct (e =? 0x75).
    + destruct r1 as [|h3 [|h2 [|h1 [|h0 r2]]]]; try discriminate H.
      cbn [length] in Hn.
      destruct (hex4 h3 h2 h1 h0); [| discriminate H].
      apply cons_char_Some in H as (str' & H).
      apply (IH (length r2) ltac:(lia) _ _ _ eq_refl) in H. lia.
    + destruct (simple_escape e); [| discriminate H].
      apply cons_char_Some in H as (str' & H).
      apply (IH (length r1) ltac:(lia) _ _ _ eq_refl) in H. lia.
  - destruct (c <? 0x20); [discriminate H |].
    apply cons_char_Some in H as (str' & H).
    apply (IH (length t) ltac:(lia) _ _ _ eq_refl) in H. lia.
Qed.

Lemma digits_length (s ds r : jsstring) :
  digits s = (ds, r) -> (length r <= length s)%nat.
Proof.
  revert ds r. induction s as [|c s IH]; intros ds r H; simpl in H.
  - injection H as _ <-. simpl. lia.
  - destruct (is_digit c).
    + destruct (digits s) as [ds' r'] eqn:E. injection H as _ <-.
      specialize (IH _ _ eq_refl). simpl. lia.
    + injection H as _ <-. lia.
Qed.

Lemma parse_number_length (s : jsstring) (v : json) (r : jsstring) :
  parse_number s = Some (v, r) -> (length r < length s)%nat.
Proof.
  unfold parse_number. intros H.
  set (signed := match s with
                 | c :: r0 => if c =? 0x2D then ([c], r0) else ([], s)
                 | [] => ([], s)
                 end) in *.
  assert (Hs : (length (snd signed) <= length s)%nat).
  { subst signed. destruct s as [|c r0]; simpl; [lia |].
    destruct (c =? 0x2D); simpl; lia. }
  destruct (parse_int (snd signed)) as [[i s1]|] eqn:Ei; [| discriminate H].
  destruct (parse_frac s1) as [[f s2]|] eqn:Ef; [| discriminate H].
  destruct (parse_exp s2) as [[e s3]|] eqn:Ee; [| discriminate H].
  injection H as _ <-.
  assert (H1 : (length s1 < length (snd signed))%nat).
  { unfold parse_int in Ei. destruct (snd signed) as [|c r0]; [discriminate Ei |].
    destruct (c =? 0x30); [injection Ei as _ <-; simpl; lia |].
    destruct (is_digit c); [| discriminate Ei].
    destruct (digits r0) as [ds r'] eqn:Ed. injection Ei as _ <-.
    apply digits_length in Ed. simpl. lia. }
  assert (H2 : (length s2 <= length s1)%nat).
  { unfold parse_frac in Ef. destruct s1 as [|c r0]; [injection Ef as _ <-; lia |].
    destruct (c =? 0x2E).
    - destruct (digits r0) as [[|d ds] r'] eqn:Ed; [discriminate Ef |].
      injection Ef as _ <-. apply digits_length in Ed. simpl. lia.
    - injection Ef as _ <-. lia. }
  assert (H3 : (length s3 <= length s2)%nat).
  { unfold parse_exp in Ee. destruct s2 as [|c r0]; [injection Ee as _ <-; lia |].
    destruct ((c =? 0x65) || (c =? 0x45)).
    - set (sg := match r0 with
                 | c1 :: r1 => if (c1 =? 0x2B) || (c1 =? 0x2D) then ([c1], r1) else ([], r0)
                 | [] => ([], r0)
                 end) in *.
      assert (Hsg : (length (snd sg) <= length r0)%nat).
      { subst sg. destruct r0 as [|c1 r1]; simpl; [lia |].
        destruct ((c1 =? 0x2B) || (c1 =? 0x2D)); simpl; lia. }
      destruct (digits (snd sg)) as [[|d ds] r'] eqn:Ed; [discriminate Ee |].
      injection Ee as _ <-. apply digits_length in Ed. simpl. lia.
    - injection Ee as _ <-. lia. }
  lia.
Qed.

Lemma startsWith_length (s pat : jsstring) :
  startsWith s pat = true -> (length pat <= length s)%nat.
Proof.
  revert s. induction pat as [|p pat IH]; intros s H; simpl; [lia |].
  destruct s as [|c s]; simpl in H; [discriminate H |].
  apply andb_true_iff in H as [_ H]. apply IH in H. simpl. lia.
Qed.

Lemma parse_fuel (fuel : nat) :
  (forall (s : jsstring) (v : json) (r : jsstring),
     parse_value fuel s = Some (v, r) ->
     (length r < length s)%nat
     /\ forall f' : nat,
          (2 * (length s - length r) <= f')%nat ->
          parse_value f' s = Some (v, r))
  /\ (forall (s : jsstring) (acc : list (jsstring * json)) (v : json)
             (r : jsstring),
        parse_members fuel s acc = Some (v, r) ->
        (length r < length s)%nat
        /\ forall f' : nat,
             (2 * (length s - length r) <= S f')%nat ->
             parse_members f' s acc = Some (v, r))
  /\ (forall (s : jsstring) (acc : list json) (v : json) (r : jsstring),
        parse_elements fuel s acc = Some (v, r) ->
        (length r < length s)%nat
        /\ forall f' : nat,
             (2 * (length s - length r) <= S f')%nat ->
             parse_elements f' s acc = Some (v, r)).
Proof.
  induction fuel as [|f (IHv & IHm & IHe)];
    [repeat split; intros; discriminate |].
  split; [| split].
  - intros s v r H. cbn [parse_value] in H.
    pose proof (skip_ws_length s) as Hws.
    destruct (skip_ws s) as [|c t] eqn:Es; [discriminate H |].
    cbn [length] in Hws.
    assert (Hscalar : forall body : option (json * jsstring),
               body = Some (v, r) -> (length r < length s)%nat ->
               (forall f0, parse_value (S f0) s = body) ->
               (length r < length s)%nat
               /\ forall f' : nat,
                    (2 * (length s - length r) <= f')%nat ->
                    parse_value f' s = Some (v, r)).
    { intros body Hb Hl Hf. split; [exact Hl |]. intros [|f0] Hle; [lia |].
      rewrite Hf. exact Hb. }
    destruct (c =? 0x22) eqn:E1.
    { destruct (parse_chars t) as [[str r']|] eqn:Ec; [| discriminate H].
      injection H as <- <-. apply parse_chars_length in Ec as Hl.
      apply (Hscalar (Some (JString str, r'))); [reflexivity | lia |].
      intros f0. cbn [parse_value]. rewrite Es, E1, Ec. reflexivity. }
    destruct (c =? 0x7B) eqn:E2.
    { pose proof (skip_ws_length t) as Hws'.
      destruct (skip_ws t) as [|c' r'] eqn:Et; [discriminate H |].
      cbn [length] in Hws'.
      destruct (c' =? 0x7D) eqn:E3.
      - injection H as <- <-.
        apply (Hscalar (Some (JObject [], r'))); [reflexivity | lia |].
        intros f0. cbn [parse_value]. rewrite Es, E1, E2, Et, E3. reflexivity.
      - destruct (IHm _ _ _ _ H) as (Hl & Hf). cbn [length] in Hl.
        split; [lia |]. intros [|f0] Hle; [lia |].
        cbn [parse_value]. rewrite Es, E1, E2, Et, E3. apply Hf.
        cbn [length]. lia. }
    destruct (c =? 0x5B) eqn:E3.
    { pose proof (skip_ws_length t) as Hws'.
      destruct (skip_ws t) as [|c' r'] eqn:Et; [discriminate H |].
      cbn [length] in Hws'.
      destruct (c' =? 0x5D) eqn:E4.
      - injection H as <- <-.
        apply (Hscalar (Some (JArray [], r'))); [reflexivity | lia |].
        intros f0. cbn [parse_value]. rewrite Es, E1, E2, E3, Et, E4.
        reflexivity.
      - destruct (IHe _ _ _ _ H) as (Hl & Hf). cbn [length] in Hl.
        split; [lia |]. intros [|f0] Hle; [lia |].
        cbn [parse_value]. rewrite Es, E1, E2, E3, Et, E4. apply Hf.
        cbn [length]. lia. }
    destruct (startsWith (c :: t) (js "true")) eqn:E4.
    { injection H as <- <-. apply startsWith_length in E4 as Hl.
      change (length (js "true")) with 4%nat in Hl.
      apply (Hscalar (Some (JBool true, drop 4 (c :: t))));
        [reflexivity | rewrite length_drop; cbn [length] in *; lia |].
      intros f0. cbn [parse_value]. rewrite Es, E1, E2, E3, E4. reflexivity. }
    destruct (startsWith (c :: t) (js "false")) eqn:E5.
    { injection H as <- <-. apply startsWith_length in E5 as Hl.
      change (length (js "false")) with 5%nat in Hl.
      apply (Hscalar (Some (JBool false, drop 5 (c :: t))));
        [reflexivity | rewrite length_drop; cbn [length] in *; lia |].
      intros f0. cbn [parse_value]. rewrite Es, E1, E2, E3, E4, E5.
      reflexivity. }
    destruct (startsWith (c :: t) (js "null")) eqn:E6.
    { injection H as <- <-. apply startsWith_length in E6 as Hl.
      change (length (js "null")) with 4%nat in Hl.
      apply (Hscalar (Some (JNull, drop 4 (c :: t))));
        [reflexivity | rewrite length_drop; cbn [length] in *; lia |].
      intros f0. cbn [parse_value]. rewrite Es, E1, E2, E3, E4, E5, E6.
      reflexivity. }
    apply parse_number_length in H as Hl. cbn [length] in Hl.
    apply (Hscalar (parse_number (c :: t))); [exact H | lia |].
    intros f0. cbn [parse_value]. rewrite Es, E1, E2, E3, E4, E5, E6.
    reflexivity.
  - intros s acc v r H. cbn [parse_members] in H.
    pose proof (skip_ws_length s) as Hws.
    destruct (skip_ws s) as [|c t] eqn:Es; [discriminate H |].
    cbn [length] in Hws.
    destruct (c =? 0x22) eqn:E1; [| discriminate H].
    destruct (parse_chars t) as [[k r1]|] eqn:Ec; [| discriminate H].
    apply parse_chars_length in Ec as Hk.
    pose proof (skip_ws_length r1) as Hws1.
    destruct (skip_ws r1) as [|c1 r2] eqn:E1s; [discriminate H |].
    cbn [length] in Hws1.
    destruct (c1 =? 0x3A) eqn:E2; [| discriminate H].
    destruct (parse_value f r2) as [[x r3]|] eqn:Ev; [| discriminate H].
    destruct (IHv _ _ _ Ev) as (Hx & Hfx).
    pose proof (skip_ws_length r3) as Hws3.
    destruct (skip_ws r3) as [|c3 r4] eqn:E3s; [discriminate H |].
    cbn [length] in Hws3.
    destruct (c3 =? 0x2C) eqn:E3.
    + destruct (IHm _ _ _ _ H) as (Hl & Hf).
      split; [lia |]. intros [|f0] Hle; [lia |].
      cbn [parse_members]. rewrite Es, E1, Ec, E1s, E2.
      rewrite (Hfx f0) by lia. rewrite E3s, E3. apply Hf. lia.
    + destruct (c3 =? 0x7D) eqn:E4; [| discriminate H].
      injection H as <- <-. split; [lia |]. intros [|f0] Hle; [lia |].
      cbn [parse_members]. rewrite Es, E1, Ec, E1s, E2.
      rewrite (Hfx f0) by lia. rewrite E3s, E3, E4. reflexivity.
  - intros s acc v r H. cbn [parse_elements] in H.
    destruct (parse_value f s) as [[x r3]|] eqn:Ev; [| discriminate H].
    destruct (IHv _ _ _ Ev) as (Hx & Hfx).
    pose proof (skip_ws_length r3) as Hws3.
    destruct (skip_ws r3) as [|c3 r4] eqn:E3s; [discriminate H |].
    cbn [length] in Hws3.
    destruct (c3 =? 0x2C) eqn:E3.
    + destruct (IHe _ _ _ _ H) as (Hl & Hf).
      split; [lia |]. intros [|f0] Hle; [lia |].
      cbn [parse_elements]. rewrite (Hfx f0) by lia.
      rewrite E3s, E3. apply Hf. lia.
    + destruct (c3 =? 0x5D) eqn:E4; [| discriminate H].
      injection H as <- <-. split; [lia |]. intros [|f0] Hle; [lia |].
      cbn [parse_elements]. rewrite (Hfx f0) by lia.
      rewrite E3s, E3, E4. reflexivity.
Qed.

(** No amount of fuel reads a text that [JSON_parse] rejects. *)
Lemma JSON_parse_fuel (fuel : nat) (text : jsstring) (v : json) (r : jsstring) :
  parse_value fuel text = Some (v, r) -> skip_ws r = [] ->
  JSON_parse text = Some v.
Proof.
  intros H Hr. unfold JSON_parse.
  destruct (parse_fuel fuel) as (Hv & _ & _).
  destruct (Hv _ _ _ H) as (Hl & Hf).
  rewrite (Hf (2 * length text + 2)%nat) by lia. rewrite Hr. reflexivity.
Qed.

(** ** Settings *)

Lemma of_js_to_js (s : AppSettings) : of_js (to_js s) = Some s.
Proof. destruct s as [l [a m] [a' m']]. reflexivity. Qed.

Lemma to_js_well_formed (s : AppSettings) : well_formed (to_js s) = true.
Proof. reflexivity. Qed.

Lemma spread2_same_shape (d s : AppSettings) :
  spread2 (to_js d) (to_js s) = to_js s.
Proof. reflexivity. Qed.

Lemma stringify_truthy (v : json) :
  well_formed v = true -> truthy (stringify v) = true.
Proof. destruct v as [|[]|n|s|l|m]; (discriminate || reflexivity). Qed.

(** C8. Whatever the settings, the defaults, the build-time key and the
    rest of the storage are: after [handleSaveSettings] has written the
    settings under "app_settings", the start-up effect reads that entry,
    parses it, merges it over the defaults, and the result is the settings
    object that was saved. *)
Theorem settings_round_trip
  (DEFAULT_SETTINGS newSettings : AppSettings) (API_KEY : jsstring) (w : World) :
  let w' := handleSaveSettings newSettings w in
  settings (app w') = newSettings
  /\ getItem (js "app_settings") (localStorage w')
     = Some (stringify (to_js newSettings))
  /\ JSON_parse (stringify (to_js newSettings)) = Some (to_js newSettings)
  /\ settings_effect DEFAULT_SETTINGS API_KEY (localStorage w')
     = to_js newSettings
  /\ load_settings DEFAULT_SETTINGS API_KEY (localStorage w') = Some newSettings.
Proof.
  intros w'.
  assert (Hget : getItem (js "app_settings") (localStorage w')
                 = Some (stringify (to_js newSettings))).
  { subst w'. unfold handleSaveSettings, save_settings, getItem, setItem.
    cbn [localStorage]. apply lookup_insert_eq. }
  assert (Hparse := JSON_parse_stringify _ (to_js_well_formed newSettings)).
  assert (Heff : settings_effect DEFAULT_SETTINGS API_KEY (localStorage w')
                 = to_js newSettings).
  { unfold settings_effect. change (js "app_settings") with app_settings in Hget.
    rewrite Hget, (stringify_truthy _ (to_js_well_formed newSettings)), Hparse.
    apply spread2_same_shape. }
  repeat split; try assumption.
  unfold load_settings. rewrite Heff. apply of_js_to_js.
Qed.

Lemma obj_get_replace_eq (k : jsstring) (v x : json)
  (m : list (jsstring * json)) :
  obj_get k m = Some x -> obj_get k (obj_replace k v m) = Some v.
Proof.
  induction m as [|[k' v'] m IH]; simpl; [discriminate |].
  destruct (str_eqb k' k) eqn:E; simpl; rewrite E; [reflexivity | exact IH].
Qed.

Lemma obj_get_replace_ne (k k' : jsstring) (v : json)
  (m : list (jsstring * json)) :
  str_eqb k k' = false -> obj_get k' (obj_replace k v m) = obj_get k' m.
Proof.
  intros Hne. induction m as [|[k1 v1] m IH]; simpl; [reflexivity |].
  destruct (str_eqb k1 k) eqn:E; simpl.
  - apply str_eqb_eq in E as ->. rewrite Hne. reflexivity.
  - rewrite IH. reflexivity.
Qed.

Lemma obj_get_insert_eq (n : N) (k : jsstring) (v : json)
  (m : list (jsstring * json)) :
  obj_get k m = None -> obj_get k (insert_index n k v m) = Some v.
Proof.
  induction m as [|[k' v'] m IH]; simpl.
  - rewrite str_eqb_refl. reflexivity.
  - destruct (str_eqb k' k) eqn:E; [discriminate |]. intros H.
    destruct (array_index k') as [n'|]; [destruct (n' <? n) |]; simpl;
      rewrite ?E, ?str_eqb_refl; auto.
Qed.

Lemma obj_get_insert_ne (n : N) (k k' : jsstring) (v : json)
  (m : list (jsstring * json)) :
  str_eqb k k' = false -> obj_get k' (insert_index n k v m) = obj_get k' m.
Proof.
  intros Hne. induction m as [|[k1 v1] m IH]; simpl.
  - rewrite Hne. reflexivity.
  - destruct (array_index k1) as [n'|]; [destruct (n' <? n) |]; simpl;
      rewrite ?Hne, ?IH; reflexivity.
Qed.

Lemma obj_get_snoc (k k' : jsstring) (v : json) (m : list (jsstring * json)) :
  obj_get k' (m ++ [(k, v)])
  = match obj_get k' m with
    | Some x => Some x
    | None => if str_eqb k k' then Some v else None
    end.
Proof.
  induction m as [|[k1 v1] m IH]; simpl; [reflexivity |].
  destruct (str_eqb k1 k'); [reflexivity | exact IH].
Qed.

Lemma obj_get_set_eq (k : jsstring) (v : json) (m : list (jsstring * json)) :
  obj_get k (obj_set k v m) = Some v.
Proof.
  unfold obj_set. destruct (obj_get k m) as [x|] eqn:E.
  - apply (obj_get_replace_eq _ _ _ _ E).
  - destruct (array_index k) as [n|].
    + apply obj_get_insert_eq, E.
    + rewrite obj_get_snoc, E, str_eqb_refl. reflexivity.
Qed.

Lemma obj_get_set_ne (k k' : jsstring) (v : json) (m : list (jsstring * json)) :
  str_eqb k k' = false -> obj_get k' (obj_set k v m) = obj_get k' m.
Proof.
  intros Hne. unfold obj_set. destruct (obj_get k m) as [x|] eqn:E.
  - apply obj_get_replace_ne, Hne.
  - destruct (array_index k) as [n|].
    + apply obj_get_insert_ne, Hne.
    + rewrite obj_get_snoc, Hne. destruct (obj_get k' m); reflexivity.
Qed.

Lemma spread_lookup (o d : list (jsstring * json)) (k : jsstring) :
  distinct_keys o = true ->
  obj_get k (fold_left (fun m kv => obj_set (fst kv) (snd kv) m) o d)
  = match obj_get k o with
    | Some v => Some v
    | None => obj_get k d
    end.
Proof.
  revert d. induction o as [|[k1 v1] o IH]; intros d Hd; simpl; [reflexivity |].
  simpl in Hd. apply andb_true_iff in Hd as [Hf Hd].
  rewrite (IH _ Hd). destruct (str_eqb k1 k) eqn:E.
  - apply str_eqb_eq in E as <-.
    rewrite (obj_get_fresh _ _ Hf). apply obj_get_set_eq.
  - destruct (obj_get k o); [reflexivity |]. apply obj_get_set_ne, E.
Qed.

(** The same for an object of another shape, such as settings with fields
    this model of [AppSettings] does not list: what is stored parses back to
    the object saved, and after the merge every property of the saved
    object reads as it was saved; a property of the defaults is seen only
    where the saved object has none of that name. *)
Lemma object_round_trip (DEFAULT_SETTINGS : AppSettings) (API_KEY : jsstring)
  (ls : Storage) (o : list (jsstring * json)) :
  well_formed (JObject o) = true ->
  let ls' := setItem app_settings (stringify (JObject o)) ls in
  exists merged,
    settings_effect DEFAULT_SETTINGS API_KEY ls' = JObject merged
    /\ forall k,
         obj_get k merged
         = match obj_get k o with
           | Some v => Some v
           | None => obj_get k (own_props (to_js DEFAULT_SETTINGS))
           end.
Proof.
  intros Hwf ls'. unfold settings_effect. subst ls'.
  unfold getItem, setItem. rewrite lookup_insert_eq.
  rewrite (stringify_truthy _ Hwf), (JSON_parse_stringify _ Hwf).
  eexists. split; [reflexivity |].
  intros k. apply spread_lookup.
  rewrite well_formed_JObject in Hwf. apply andb_true_iff in Hwf as [Hd _].
  apply andb_true_iff in Hd as [Hd _]. exact Hd.
Qed.

(** * Further properties *)

(** ** Trimming *)

Lemma trimStart_all_white (s : jsstring) :
  forallb is_white s = true -> trimStart s = [].
Proof.
  induction s as [|c s IH]; simpl; [reflexivity |].
  rewrite andb_true_iff. intros [-> H]. apply IH, H.
Qed.

Lemma trim_all_white (s : jsstring) :
  forallb is_white s = true -> trim s = [].
Proof. intros H. unfold trim. rewrite (trimStart_all_white _ H). reflexivity. Qed.

Lemma trimStart_head (s : jsstring) :
  trimStart s = [] \/ exists c r, trimStart s = c :: r /\ is_white c = false.
Proof.
  induction s as [|c s IH]; simpl; [left; reflexivity |].
  destruct (is_white c) eqn:E; [exact IH |]. right. eauto.
Qed.

Lemma trimStart_In (s : jsstring) (x : N) : In x (trimStart s) -> In x s.
Proof.
  induction s as [|c s IH]; simpl; [tauto |].
  destruct (is_white c); [auto | simpl; tauto].
Qed.

Lemma trimStart_snoc (l : jsstring) (c : N) :
  is_white c = false -> trimStart (l ++ [c]) = trimStart l ++ [c].
Proof.
  intros Hc. induction l as [|d l IH]; simpl.
  - rewrite Hc. reflexivity.
  - destruct (is_white d); [exact IH | reflexivity].
Qed.

Lemma trimEnd_cons (c : N) (r : jsstring) :
  is_white c = false -> trimEnd (c :: r) = c :: trimEnd r.
Proof.
  intros Hc. unfold trimEnd. simpl rev.
  rewrite (trimStart_snoc _ _ Hc), rev_app_distr. reflexivity.
Qed.

Lemma trimEnd_last (s : jsstring) :
  trimEnd s = [] \/ exists q d, trimEnd s = q ++ [d] /\ is_white d = false.
Proof.
  unfold trimEnd. destruct (trimStart_head (rev s)) as [-> | (d & r & -> & Hd)].
  - left. reflexivity.
  - right. exists (rev r), d. split; [reflexivity | exact Hd].
Qed.

Lemma trim_In (s : jsstring) (x : N) : In x (trim s) -> In x s.
Proof.
  unfold trim, trimEnd. intros H. apply in_rev in H.
  apply trimStart_In in H. apply in_rev in H. apply trimStart_In, H.
Qed.

(** What [trim] returns is empty, or starts and ends with a unit that is
    not white space; trimming it again changes nothing. *)
Lemma trim_shape (s : jsstring) :
  trim s = []
  \/ (exists c r, trim s = c :: r /\ is_white c = false)
     /\ (exists q d, trim s = q ++ [d] /\ is_white d = false).
Proof.
  unfold trim.
  destruct (trimStart_head s) as [-> | (c & r & E & Hc)]; [left; reflexivity |].
  right. rewrite E. split.
  - exists c, (trimEnd r). split; [apply trimEnd_cons, Hc | exact Hc].
  - destruct (trimEnd_last (c :: r)) as [H | H]; [| exact H].
    rewrite (trimEnd_cons _ _ Hc) in H. discriminate H.
Qed.

Lemma trim_idempotent (s : jsstring) : trim (trim s) = trim s.
Proof.
  destruct (trim_shape s) as [-> | [(c & r & E & Hc) (q & d & E' & Hd)]];
    [reflexivity |].
  unfold trim at 1.
  assert (Hs : trimStart (trim s) = trim s) by (rewrite E; simpl; rewrite Hc; reflexivity).
  rewrite Hs. unfold trimEnd. rewrite E', rev_app_distr. simpl.
  rewrite Hd. simpl. rewrite rev_involutive. reflexivity.
Qed.

Lemma trim_cons_nonwhite (c : N) (r : jsstring) :
  is_white c = false -> trim (c :: r) = c :: trimEnd r.
Proof.
  intros Hc. unfold trim. simpl. rewrite Hc. apply trimEnd_cons, Hc.
Qed.

(** ** The reading view *)

Lemma split_pieces (sep : N) (s piece : jsstring) :
  In piece (split sep s) ->
  ~ In sep piece /\ forall x, In x piece -> In x s.
Proof.
  revert piece. induction s as [|c s IH]; intros piece; simpl.
  - intros [<- | []]. split; [tauto | auto].
  - destruct (N.eqb_spec c sep) as [-> | Hne].
    + intros [<- | H]; [split; simpl; tauto |].
      destruct (IH _ H) as [H1 H2]. split; [exact H1 | auto].
    + destruct (split sep s) as [|p ps] eqn:E.
      * intros [<- | []]. split; simpl; [intros [? | []]; congruence | tauto].
      * intros [<- | H].
        -- destruct (IH p (or_introl eq_refl)) as [H1 H2]. split.
           ++ simpl. intros [? | ?]; [congruence | tauto].
           ++ simpl. intros x [-> | Hx]; auto.
        -- destruct (IH piece (or_intror H)) as [H1 H2]. split; [exact H1 | auto].
Qed.

(** X10. Every paragraph of the reading view is a non-empty piece
    of one line of the summary: it holds no line feed, starts and ends with
    a unit that is not white space, and trimming it changes nothing. *)
Theorem paragraphs_trimmed (summary p : jsstring) :
  In (Some p) (paragraphs summary) ->
  p <> []
  /\ trim p = p
  /\ ~ In LF p
  /\ (forall x, In x p -> In x summary)
  /\ (exists c r, p = c :: r /\ is_white c = false)
  /\ (exists q d, p = q ++ [d] /\ is_white d = false).
Proof.
  unfold paragraphs. intros H. apply in_map_iff in H as (line & Hp & Hline).
  cbv zeta in Hp. destruct (truthy (trim line)) eqn:Ht; [| discriminate Hp].
  injection Hp as <-. apply truthy_true in Ht.
  destruct (split_pieces _ _ _ Hline) as [Hlf Hsub].
  split; [exact Ht |]. split; [apply trim_idempotent |].
  split; [intros Hin; apply Hlf, trim_In, Hin |].
  split; [intros x Hx; apply Hsub, trim_In, Hx |].
  destruct (trim_shape line) as [E | H]; [congruence | exact H].
Qed.

Lemma paragraphs_trimmed_witness :
  ~ In LF (js "second line").
Proof.
  refine (proj1 (proj2 (proj2
            (paragraphs_trimmed
               (js "first" ++ [LF; LF; 0x20] ++ js "second line " ++ [LF])
               (js "second line") _)))).
  vm_compute. right. right. left. reflexivity.
Defined.

(** X11. A summary made of white space only shows no paragraph:
    every line of it is rendered as [null]. *)
Theorem paragraphs_blank (summary : jsstring) (e : option jsstring) :
  forallb is_white summary = true ->
  In e (paragraphs summary) -> e = None.
Proof.
  intros Hw H. unfold paragraphs in H.
  apply in_map_iff in H as (line & <- & Hline). cbv zeta.
  destruct (split_pieces _ _ _ Hline) as [_ Hsub].
  rewrite trim_all_white; [reflexivity |].
  apply forallb_forall. intros x Hx.
  apply (proj1 (forallb_forall _ _) Hw), Hsub, Hx.
Qed.

Lemma paragraphs_blank_witness :
  In None (paragraphs [0x20; LF; 0x09]) /\
  forall e, In e (paragraphs [0x20; LF; 0x09]) -> e = None.
Proof.
  split.
  - vm_compute. left. reflexivity.
  - intros e. apply (paragraphs_blank [0x20; LF; 0x09] e). reflexivity.
Defined.

(** ** Generating a summary *)

(** X1. With an article text made of white space only, "generate
    summary" does nothing: the handler returns at its first line and the
    button is disabled. *)
Theorem generate_summary_blank_input (w : World) :
  forallb is_white (textInput (app w)) = true ->
  handleGenerateSummary (app w) = (app w, None)
  /\ summary_button_disabled (app w) = true
  /\ step ClickGenerateSummary w = w.
Proof.
  intros H. apply trim_all_white in H.
  unfold handleGenerateSummary. cbn [step]. unfold summary_button_disabled.
  rewrite H. repeat split.
Qed.

Lemma generate_summary_blank_input_witness :
  let w := step (Change [0x20; LF; 0x09; 0x3000]) (mounted a_key ∅) in
  textInput (app w) <> [] /\ step ClickGenerateSummary w = w.
Proof.
  intros w. split; [discriminate |].
  apply (generate_summary_blank_input w). reflexivity.
Defined.

(** X2. A click on an enabled "generate summary" button, in any
    state of the page, empties the summary, drops the audio buffer and the
    error, hides the error banner and the reading view, and starts exactly
    one summarization call, for the text and with the settings of that
    moment; the text and the settings stay, and the button is disabled
    from then on. *)
Theorem new_summary_resets (w : World) :
  summary_button_disabled (app w) = false ->
  let w' := step ClickGenerateSummary w in
  summary (app w') = []
  /\ audioBuffer (app w') = None
  /\ errorDetails (app w') = []
  /\ appState (app w') = GENERATING_SUMMARY
  /\ error_shown (app w') = false
  /\ reading_view_shown (app w') = false
  /\ inflight w'
     = inflight w ++ [Summarizing (textInput (app w)) (settings (app w))]
  /\ textInput (app w') = textInput (app w)
  /\ settings (app w') = settings (app w)
  /\ step ClickGenerateSummary w' = w'.
Proof.
  intros Hd w'. subst w'. rewrite (click_generate_summary_enabled _ Hd).
  repeat split. cbn [step]. unfold summary_button_disabled.
  cbn. rewrite orb_true_r. reflexivity.
Qed.

Lemma new_summary_resets_witness :
  let w := run stale_audio (mounted a_key ∅) in
  audioBuffer (app w) <> None
  /\ audioBuffer (app (step ClickGenerateSummary w)) = None
  /\ summary (app (step ClickGenerateSummary w)) = [].
Proof.
  intros w. split; [vm_compute; discriminate |].
  assert (Hd : summary_button_disabled (app w) = false) by (vm_compute; reflexivity).
  pose proof (new_summary_resets w Hd) as (H1 & H2 & _).
  split; [exact H2 | exact H1].
Defined.

(** X3. On every run in which "generate summary" is never clicked
    while a call for speech is in flight, the audio buffer held, if any,
    was synthesized from the summary held; there is at most one
    summarization call and at most one speech call in flight, and never
    one of each. *)
Theorem serial_run_audio_matches (s : AppSettings) (ls : Storage)
  (evs : list Event) :
  serial evs (mounted s ls) ->
  let w := run evs (mounted s ls) in
  audio_matches_summary (app w)
  /\ (outstanding Summarization w <= 1)%nat
  /\ (outstanding SpeechSynthesis w <= 1)%nat
  /\ (outstanding Summarization w + outstanding SpeechSynthesis w <= 1)%nat.
Proof.
  intros H w.
  destruct (run_serial _ _ H (mounted_serial s ls)) as [I1 _ I3 I4].
  fold w in I1, I3, I4. split; [exact I1 |].
  destruct (outstanding Summarization w) as [|n] eqn:Es;
    destruct (outstanding SpeechSynthesis w) as [|m] eqn:Ea;
    try (destruct I3 as (_ & _ & ? & ?); [lia |]);
    try (destruct I4 as (_ & ?); [lia |]); lia.
Qed.

Lemma serial_run_audio_matches_witness :
  let evs := [Change (js "news"); ClickGenerateSummary;
              Settle 0 (SummaryOutcome (Fulfilled (js "S1")));
              ClickGenerateAudio;
              Settle 0 (SpeechOutcome (Fulfilled [7%Z]))] in
  audio_matches_summary (app (run evs (mounted a_key ∅))).
Proof.
  intros evs.
  refine (proj1 (serial_run_audio_matches a_key ∅ evs _)).
  cbn [serial evs].
  repeat split; (discriminate || (intros _; vm_compute; reflexivity)).
Defined.

(** X12. In every state the page can reach there is at most one
    feed call in flight, and [isFetchingNews] is true exactly when there is
    one. *)
Theorem at_most_one_fetch (w : World) :
  reachable w ->
  (outstanding FeedFetch w <= 1)%nat
  /\ (isFetchingNews (input w) = true <-> outstanding FeedFetch w = 1%nat).
Proof.
  intros Hr. apply reachable_tracks in Hr. unfold flag_tracks_fetch in Hr.
  rewrite Hr. destruct (isFetchingNews (input w)); split; try lia;
    split; congruence.
Qed.

Lemma at_most_one_fetch_witness :
  let w := run [SelectSource (js "https://36kr.com/feed"); RandomSource 2;
                SelectSource (js "https://sspai.com/feed")]
               (mounted a_key ∅) in
  outstanding FeedFetch w = 1%nat.
Proof.
  intros w.
  apply (proj2 (at_most_one_fetch w (overlap_reachable _))).
  vm_compute. reflexivity.
Defined.

(** ** Generating audio *)

Lemma with_app_same (w : World) : with_app (fun _ => app w) w = w.
Proof. destruct w. reflexivity. Qed.

(** X4. With an empty summary, for instance when the
    summarization resolved with the empty string, "generate audio" does
    nothing: the handler returns at its first line, whatever the state, and
    a click on the button, though enabled, leaves the page as it is. *)
Theorem generate_audio_empty_summary (w : World) :
  summary (app w) = [] ->
  handleGenerateAudio (app w) = (app w, None)
  /\ step ClickGenerateAudio w = w.
Proof.
  intros Hs. unfold handleGenerateAudio. cbn [step].
  unfold handleGenerateAudio. rewrite Hs. split; [reflexivity |].
  destruct (audio_button_rendered (app w) && negb (audio_button_disabled (app w)));
    [apply with_app_same | reflexivity].
Qed.

Lemma generate_audio_empty_summary_witness :
  let w := run [Change (js "news"); ClickGenerateSummary;
                Settle 0 (SummaryOutcome (Fulfilled []))] (mounted a_key ∅) in
  audio_button_rendered (app w) && negb (audio_button_disabled (app w)) = true
  /\ step ClickGenerateAudio w = w.
Proof.
  intros w. split; [vm_compute; reflexivity |].
  apply (generate_audio_empty_summary w). vm_compute. reflexivity.
Defined.

(** X5. When a speech call resolves, the audio buffer holds
    what it returned, for the text the call was given; the state is ready,
    the summary, the text and the error are as they were, and the player
    takes the place of the "generate audio" button: a click there does
    nothing until a new summary has dropped the buffer. *)
Theorem speech_success_holds_audio
  (w : World) (i : nat) (text : jsstring) (st : AppSettings) (pcm : list Z) :
  inflight w !! i = Some (Synthesizing text st) ->
  let w' := step (Settle i (SpeechOutcome (Fulfilled pcm))) w in
  audioBuffer (app w') = Some (mkAudio text pcm)
  /\ appState (app w') = READY
  /\ summary (app w') = summary (app w)
  /\ textInput (app w') = textInput (app w)
  /\ errorDetails (app w') = errorDetails (app w)
  /\ inflight w' = delete i (inflight w)
  /\ audio_button_rendered (app w') = false
  /\ step ClickGenerateAudio w' = w'.
Proof.
  intros Hp w'. subst w'. cbn [step]. rewrite Hp.
  repeat split.
Qed.

Lemma speech_success_holds_audio_witness :
  let w := run [Change (js "news"); ClickGenerateSummary;
                Settle 0 (SummaryOutcome (Fulfilled (js "S1")));
                ClickGenerateAudio] (mounted a_key ∅) in
  audioBuffer (app (step (Settle 0 (SpeechOutcome (Fulfilled [3%Z]))) w))
  = Some (mkAudio (js "S1") [3%Z]).
Proof.
  intros w.
  refine (proj1 (speech_success_holds_audio w 0%nat (js "S1") a_key [3%Z] _)).
  vm_compute. reflexivity.
Defined.

(** X6. When a speech call is rejected, the state is error
    and the banner is shown; the summary and the audio buffer are kept as
    they were, but the reading view, which shows them, is not rendered, so
    a click on "generate audio" does nothing: the way on is a new
    summary. *)
Theorem speech_failure_hides_summary
  (w : World) (i : nat) (text : jsstring) (st : AppSettings) (e : JsError) :
  inflight w !! i = Some (Synthesizing text st) ->
  let w' := step (Settle i (SpeechOutcome (Rejected e))) w in
  appState (app w') = ERROR
  /\ error_shown (app w') = true
  /\ summary (app w') = summary (app w)
  /\ audioBuffer (app w') = audioBuffer (app w)
  /\ textInput (app w') = textInput (app w)
  /\ reading_view_shown (app w') = false
  /\ step ClickGenerateAudio w' = w'
  /\ inflight w' = delete i (inflight w).
Proof.
  intros Hp w'. subst w'. cbn [step]. rewrite Hp. repeat split.
Qed.

Lemma speech_failure_hides_summary_witness :
  let w := run [Change (js "news"); ClickGenerateSummary;
                Settle 0 (SummaryOutcome (Fulfilled (js "S1")));
                ClickGenerateAudio] (mounted a_key ∅) in
  let w' := step (Settle 0 (SpeechOutcome
                    (Rejected (mkError (Some (js "quota")) (js "Error: quota")))))
                 w in
  summary (app w') = js "S1" /\ reading_view_shown (app w') = false.
Proof.
  intros w w'.
  destruct (speech_failure_hides_summary w 0%nat (js "S1") a_key
              (mkError (Some (js "quota")) (js "Error: quota")))
    as (_ & _ & H3 & _ & _ & H6 & _).
  - vm_compute. reflexivity.
  - split; [| exact H6].
    transitivity (summary (app w)); [exact H3 | vm_compute; reflexivity].
Defined.

(** ** Errors *)

(** X7. For any language other than zh-CN, an error whose message
    contains "SAFETY" is shown as the fixed English sentence; and
    [handleError] changes the state and the error details only. *)
Theorem handleError_other_language (st : AppSettings) (e : JsError) (a : App) :
  contains (raw_message e) (js "SAFETY") ->
  language st <> js "zh-CN" ->
  errorDetails (handleError st e a) = js "Content blocked by safety filters."
  /\ summary (handleError st e a) = summary a
  /\ audioBuffer (handleError st e a) = audioBuffer a
  /\ textInput (handleError st e a) = textInput a
  /\ settings (handleError st e a) = settings a.
Proof.
  intros Hc Hl. apply includes_contains in Hc.
  assert (Hne : str_eqb (language st) (js "zh-CN") = false).
  { destruct (str_eqb (language st) (js "zh-CN")) eqn:E; [| reflexivity].
    apply str_eqb_eq in E. contradiction. }
  unfold handleError. cbn [errorDetails setErrorDetails].
  rewrite Hc, Hne. repeat split.
Qed.

Lemma handleError_other_language_witness :
  errorDetails (handleError a_key
                  (mkError (Some (js "finishReason: SAFETY")) (js "Error"))
                  (initial a_key))
  = js "Content blocked by safety filters.".
Proof.
  refine (proj1 (handleError_other_language a_key
                   (mkError (Some (js "finishReason: SAFETY")) (js "Error"))
                   (initial a_key) _ _)).
  - exists (js "finishReason: "), []. vm_compute. reflexivity.
  - vm_compute. discriminate.
Defined.

(** X8. The language of the safety message is the one in force when
    "generate summary" was clicked: settings saved while the call is in
    flight become the settings of the page, but the handler that resumes
    still has those of the click. *)
Theorem error_language_of_click
  (w : World) (newSettings : AppSettings) (e : JsError) :
  summary_button_disabled (app w) = false ->
  contains (raw_message e) (js "SAFETY") ->
  let w1 := step ClickGenerateSummary w in
  let w2 := step (SaveSettings newSettings) w1 in
  let w3 := step (Settle (length (inflight w)) (SummaryOutcome (Rejected e))) w2 in
  settings (app w3) = newSettings
  /\ appState (app w3) = ERROR
  /\ errorDetails (app w3)
     = if str_eqb (language (settings (app w))) (js "zh-CN")
       then js "内容被安全过滤器拦截。"
       else js "Content blocked by safety filters.".
Proof.
  intros Hd Hc w1 w2 w3. subst w1 w2 w3.
  rewrite (click_generate_summary_enabled _ Hd).
  apply includes_contains in Hc.
  cbn [step handleSaveSettings start_call with_app inflight].
  rewrite list_lookup_middle by reflexivity.
  cbn. unfold handleError. cbn. rewrite Hc. repeat split.
Qed.

Lemma error_language_of_click_witness :
  let zh := mkSettings (js "zh-CN") (mkService (js "k") []) (mkService [] []) in
  let w := step (Change (js "news")) (mounted zh ∅) in
  let e := mkError (Some (js "SAFETY")) (js "Error: SAFETY") in
  settings
    (app (step (Settle (length (inflight w)) (SummaryOutcome (Rejected e)))
            (step (SaveSettings a_key) (step ClickGenerateSummary w))))
  = a_key
  /\ errorDetails
       (app (step (Settle (length (inflight w)) (SummaryOutcome (Rejected e)))
               (step (SaveSettings a_key) (step ClickGenerateSummary w))))
     = (if str_eqb (js "zh-CN") (js "zh-CN")
        then js "内容被安全过滤器拦截。"
        else js "Content blocked by safety filters.").
Proof.
  intros zh w e.
  assert (Hd : summary_button_disabled (app w) = false)
    by (vm_compute; reflexivity).
  assert (Hc : contains (raw_message e) (js "SAFETY"))
    by (exists [], []; vm_compute; reflexivity).
  split.
  - exact (proj1 (error_language_of_click w a_key e Hd Hc)).
  - exact (proj2 (proj2 (error_language_of_click w a_key e Hd Hc))).
Defined.

(** ** A page without a key *)

Lemma no_key_step (s : AppSettings) (ls : Storage) (b : bool) (e : Event) :
  apiKey (llm s) = [] -> keeps_settings e ->
  exists b',
    step e (mkWorld (mkApp [] [] None IDLE [] s b false)
                    (mkInput false [] []) [] [] ls)
    = mkWorld (mkApp [] [] None IDLE [] s b' false)
              (mkInput false [] []) [] [] ls.
Proof.
  intros Hk He.
  destruct e as [value|confirmed| | |u|pick| | |newSettings|i o|i];
    cbn [step]; unfold isConfigMissing, summary_button_disabled;
    cbn [app settings textInput input isFetchingNews inflight timers];
    rewrite ?Hk; cbn; try (eexists; reflexivity).
  contradiction.
Qed.

Lemma no_key_run (s : AppSettings) (ls : Storage) (evs : list Event) (b : bool) :
  apiKey (llm s) = [] -> Forall keeps_settings evs ->
  exists b',
    run evs (mkWorld (mkApp [] [] None IDLE [] s b false)
                     (mkInput false [] []) [] [] ls)
    = mkWorld (mkApp [] [] None IDLE [] s b' false)
              (mkInput false [] []) [] [] ls.
Proof.
  intros Hk Hevs. revert b. induction Hevs as [|e evs He _ IH]; intros b.
  - exists b. reflexivity.
  - cbn [run fold_left].
    destruct (no_key_step s ls b e Hk He) as [b' ->]. apply IH.
Qed.

(** X9. As long as the summarization key is missing and no settings
    are saved, nothing happens on the page: whatever is clicked or typed,
    the text stays empty, the state idle, no remote call is started, no
    timer is set and the storage is not written. *)
Theorem no_key_nothing_starts (s : AppSettings) (ls : Storage)
  (evs : list Event) :
  apiKey (llm s) = [] ->
  Forall keeps_settings evs ->
  let w := run evs (mounted s ls) in
  inflight w = [] /\ timers w = []
  /\ appState (app w) = IDLE /\ textInput (app w) = []
  /\ summary (app w) = [] /\ audioBuffer (app w) = None
  /\ settings (app w) = s /\ localStorage w = ls
  /\ input w = mkInput false [] [].
Proof.
  intros Hk Hevs w. subst w. unfold mounted, initial.
  destruct (no_key_run s ls evs false Hk Hevs) as [b' ->].
  repeat split.
Qed.

Lemma no_key_nothing_starts_witness :
  let s := mkSettings (js "en") (mkService [] (js "m")) (mkService (js "k") (js "v")) in
  let w := run [Change (js "news"); SelectSource (js "https://36kr.com/feed");
                RandomSource 1; ClickGenerateSummary; OpenSettings;
                ClickGenerateAudio] (mounted s ∅) in
  inflight w = [] /\ textInput (app w) = [].
Proof.
  intros s w.
  destruct (no_key_nothing_starts s ∅
              [Change (js "news"); SelectSource (js "https://36kr.com/feed");
               RandomSource 1; ClickGenerateSummary; OpenSettings;
               ClickGenerateAudio]) as (H1 & _ & _ & H4 & _).
  - reflexivity.
  - repeat constructor.
  - split; [exact H1 | exact H4].
Defined.

(** ** Choosing a source *)

Lemma source_eta (s : Source) : mkSource (name s) (Feed.url s) = s.
Proof. destruct s. reflexivity. Qed.

Lemma otherSources_elem (selected : jsstring) (s : Source) :
  s ∈ otherSources selected -> s ∈ SOURCES /\ Feed.url s <> selected.
Proof.
  unfold otherSources. intros H. apply list_elem_of_filter in H as [Hp Hin].
  split; [exact Hin |]. intros E.
  apply str_eqb_eq in E. rewrite E in Hp. exact Hp.
Qed.

(** At most one source has the address selected, so at least seven are
    left to choose from. *)
Lemma otherSources_length (selected : jsstring) :
  (7 <= length (otherSources selected))%nat.
Proof.
  unfold otherSources, SOURCES, first_source.
  repeat match goal with
         | |- context [filter _ (mkSource ?n ?u :: _)] =>
           let E := fresh "E" in
           rewrite (filter_cons _ (mkSource n u)); cbn [Feed.url];
           destruct (str_eqb u selected) eqn:E;
           [ apply str_eqb_eq in E; subst selected; vm_compute; lia
           | cbn [negb]; rewrite decide_True by exact I ]
         end.
  cbn. lia.
Qed.

Lemma handleRandomSource_unfold (pick : nat) (w : World) :
  handleRandomSource pick w
  = let randomSource :=
      match otherSources (selectedSourceUrl (input w)) !! pick with
      | Some s => s
      | None => first_source
      end in
    fetchFeed (Feed.url randomSource) (name randomSource)
              (with_input (set_selectedSourceUrl (Feed.url randomSource)) w).
Proof. unfold handleRandomSource, otherSources. reflexivity. Qed.

(** X14. With no fetch in flight and a key configured, the random
    button selects a source of [SOURCES] whose address differs from the one
    selected before, and starts one feed call for it, announced under the
    name listed for it. The index drawn is below the number of other
    sources, which is at least seven. *)
Theorem random_source_differs (w : World) (pick : nat) :
  isFetchingNews (input w) = false ->
  isConfigMissing (app w) = false ->
  (pick < length (otherSources (selectedSourceUrl (input w))))%nat ->
  let w' := step (RandomSource pick) w in
  exists s : Source,
    s ∈ SOURCES
    /\ Feed.url s <> selectedSourceUrl (input w)
    /\ selectedSourceUrl (input w') = Feed.url s
    /\ inflight w' = inflight w ++ [Fetching (Feed.url s) (name s)]
    /\ isFetchingNews (input w') = true
    /\ fetchStatus (input w') = js "Connecting to " ++ name s ++ js "..."
    /\ app w' = app w.
Proof.
  intros Hf Hc Hpick w'. subst w'.
  apply lookup_lt_is_Some_2 in Hpick as [s Hs].
  destruct (otherSources_elem _ _ (list_elem_of_lookup_2 _ _ _ Hs)) as [Hin Hne].
  exists s. split; [exact Hin |]. split; [exact Hne |].
  cbn [step]. rewrite Hf, Hc. cbn [orb].
  rewrite handleRandomSource_unfold, Hs. cbv zeta.
  unfold fetchFeed. cbn [with_input input isFetchingNews set_selectedSourceUrl].
  rewrite Hf. repeat split.
Qed.

Lemma random_source_differs_witness :
  let w := step (TimerFires 0)
             (step (Settle 0 (FeedOutcome NetworkFailure))
                (step (SelectSource (js "https://36kr.com/feed"))
                   (mounted a_key ∅))) in
  exists s : Source,
    s ∈ SOURCES /\ Feed.url s <> js "https://36kr.com/feed"
    /\ selectedSourceUrl (input (step (RandomSource 1) w)) = Feed.url s.
Proof.
  intros w.
  destruct (random_source_differs w 1%nat) as (s & H1 & H2 & H3 & _).
  - reflexivity.
  - reflexivity.
  - pose proof (otherSources_length (selectedSourceUrl (input w))). lia.
  - exists s. split; [exact H1 |]. split; [exact H2 | exact H3].
Defined.

(** X15. Choosing an entry of the select records it as the selection.
    If it is the address of a listed source, one feed call is started for
    it under the name listed; the placeholder entry (the empty address) or
    an address that is not listed starts nothing. *)
Theorem select_source_starts_listed (w : World) (u : jsstring) :
  isFetchingNews (input w) = false ->
  isConfigMissing (app w) = false ->
  let w' := step (SelectSource u) w in
  selectedSourceUrl (input w') = u
  /\ app w' = app w
  /\ ((exists n, mkSource n u ∈ SOURCES /\ u <> []
                 /\ inflight w' = inflight w ++ [Fetching u n]
                 /\ isFetchingNews (input w') = true
                 /\ fetchStatus (input w') = js "Connecting to " ++ n ++ js "...")
      \/ ((u = [] \/ forall n, mkSource n u ∉ SOURCES)
          /\ inflight w' = inflight w
          /\ isFetchingNews (input w') = false
          /\ fetchStatus (input w') = fetchStatus (input w))).
Proof.
  intros Hf Hc w'. subst w'. cbn [step]. rewrite Hf, Hc. cbn [orb].
  unfold handleSelectSource. destruct (truthy u) eqn:Hu.
  - destruct (find (fun s => str_eqb (Feed.url s) u) SOURCES) as [s|] eqn:Hfind.
    + apply find_some in Hfind as [Hin Heq]. apply str_eqb_eq in Heq.
      apply list_elem_of_In in Hin.
      unfold fetchFeed. cbn. rewrite Hf. cbn.
      split; [reflexivity |]. split; [reflexivity |]. left.
      exists (name s). subst u. rewrite source_eta.
      apply truthy_true in Hu. repeat split; assumption.
    + cbn. split; [reflexivity |]. split; [reflexivity |]. right.
      split; [| rewrite Hf; repeat split].
      right. intros n Hin. apply list_elem_of_In in Hin.
      pose proof (find_none _ _ Hfind _ Hin) as Hno. cbn in Hno.
      rewrite str_eqb_refl in Hno. discriminate Hno.
  - destruct u; [| discriminate Hu]. cbn.
    split; [reflexivity |]. split; [reflexivity |]. right.
    rewrite Hf. repeat split. left. reflexivity.
Qed.

Lemma select_source_starts_listed_witness :
  inflight (step (SelectSource (js "https://techcrunch.com/feed/"))
              (mounted a_key ∅))
  = [Fetching (js "https://techcrunch.com/feed/") (js "TechCrunch")]
  /\ inflight (step (SelectSource []) (mounted a_key ∅)) = []
  /\ selectedSourceUrl
       (input (step (SelectSource (js "https://example.org/feed"))
                 (mounted a_key ∅)))
     = js "https://example.org/feed".
Proof.
  split; [vm_compute; reflexivity |]. split; [vm_compute; reflexivity |].
  refine (proj1 (select_source_starts_listed (mounted a_key ∅)
                   (js "https://example.org/feed") _ _)); reflexivity.
Defined.

(** *** Only listed feeds are fetched *)

Lemma fetchFeed_listed (s : Source) (w : World) :
  s ∈ SOURCES ->
  Forall from_SOURCES (inflight w) ->
  Forall from_SOURCES (inflight (fetchFeed (Feed.url s) (name s) w)).
Proof.
  intros Hs H. unfold fetchFeed. destruct (isFetchingNews (input w)); [exact H |].
  cbn. apply Forall_app. split; [exact H |].
  constructor; [| constructor]. cbn. rewrite source_eta. exact Hs.
Qed.

Lemma step_listed (e : Event) (w : World) :
  Forall from_SOURCES (inflight w) -> Forall from_SOURCES (inflight (step e w)).
Proof.
  intros H.
  destruct e as [value|confirmed| | |u|pick| | |newSettings|i o|i]; cbn [step].
  - destruct (isConfigMissing (app w)); exact H.
  - destruct (truthy (textInput (app w)) && confirmed); exact H.
  - destruct (summary_button_disabled (app w)); [exact H |].
    unfold handleGenerateSummary.
    destruct (negb (truthy (trim (textInput (app w))))); cbn; [exact H |].
    apply Forall_app. split; [exact H | repeat constructor].
  - destruct (audio_button_rendered (app w) && negb (audio_button_disabled (app w)));
      [| exact H].
    unfold handleGenerateAudio.
    destruct (negb (truthy (summary (app w)))); cbn; [exact H |].
    apply Forall_app. split; [exact H | repeat constructor].
  - destruct (isFetchingNews (input w) || isConfigMissing (app w)); [exact H |].
    unfold handleSelectSource. destruct (truthy u); [| exact H].
    destruct (find (fun s => str_eqb (Feed.url s) u) SOURCES) as [s|] eqn:Hfind;
      [| exact H].
    apply find_some in Hfind as [Hin Heq]. apply str_eqb_eq in Heq. subst u.
    apply list_elem_of_In in Hin.
    apply (fetchFeed_listed s (with_input _ w) Hin H).
  - destruct (isFetchingNews (input w) || isConfigMissing (app w)); [exact H |].
    rewrite handleRandomSource_unfold. cbv zeta.
    destruct (otherSources (selectedSourceUrl (input w)) !! pick) as [s|] eqn:Hs.
    + apply list_elem_of_lookup_2, otherSources_elem in Hs as [Hin _].
      apply (fetchFeed_listed s (with_input _ w) Hin H).
    + apply (fetchFeed_listed first_source (with_input _ w)); [| exact H].
      unfold SOURCES. apply elem_of_cons. left. reflexivity.
  - exact H.
  - exact H.
  - exact H.
  - destruct (inflight w !! i) as [p|] eqn:Hp; [| exact H].
    destruct p, o; try exact H; cbn.
    + apply Forall_delete, H.
    + apply Forall_delete, H.
    + unfold fetchFeed_resume.
      destruct (try_assemble sourceName r); cbn; apply Forall_delete, H.
  - destruct (timers w !! i) as [t|]; [| exact H].
    destruct t as [d []]. exact H.
Qed.

Lemma run_listed (evs : list Event) (w : World) :
  Forall from_SOURCES (inflight w) ->
  Forall from_SOURCES (inflight (run evs w)).
Proof.
  revert w. induction evs as [|e evs IH]; intros w H; [exact H |].
  cbn [run fold_left]. apply IH, step_listed, H.
Qed.

(** X13. Every feed call the page ever has in flight is for an entry
    of [SOURCES]: the address requested and the name announced are those of
    one listed source. *)
Theorem only_listed_feeds (w : World) (i : nat) (feedUrl sourceName : jsstring) :
  reachable w ->
  inflight w !! i = Some (Fetching feedUrl sourceName) ->
  mkSource sourceName feedUrl ∈ SOURCES.
Proof.
  intros (s & ls & evs & ->) Hp.
  assert (H : Forall from_SOURCES (inflight (run evs (mounted s ls))))
    by (apply run_listed; constructor).
  apply (Forall_lookup_1 _ _ _ _ H Hp).
Qed.

Lemma only_listed_feeds_witness :
  mkSource (js "The Verge") (js "https://www.theverge.com/rss/index.xml")
  ∈ SOURCES.
Proof.
  apply (only_listed_feeds
           (run [SelectSource (js "https://36kr.com/feed"); RandomSource 4;
                 Settle 0 (FeedOutcome NetworkFailure); RandomSource 4]
                (mounted a_key ∅))
           0%nat).
  - apply overlap_reachable.
  - vm_compute. reflexivity.
Defined.

(** ** Feed status *)

(** X16. The timer a failed fetch sets empties the status
    whatever it shows when it fires. If a new fetch has been started in the
    meantime, its "Connecting to ..." status is removed while the call is
    still in flight and the controls are still disabled. *)
Theorem failure_timer_clears_newer_status
  (w : World) (i : nat) (feedUrl sourceName : jsstring) (r : FetchResult)
  (feedUrl' sourceName' : jsstring) :
  inflight w !! i = Some (Fetching feedUrl sourceName) ->
  try_assemble sourceName r = None ->
  let w1 := step (Settle i (FeedOutcome r)) w in
  let w2 := fetchFeed feedUrl' sourceName' w1 in
  let w3 := step (TimerFires (length (timers w))) w2 in
  fetchStatus (input w2) = js "Connecting to " ++ sourceName' ++ js "..."
  /\ toast_shown (input w2) = true
  /\ fetchStatus (input w3) = []
  /\ toast_shown (input w3) = false
  /\ isFetchingNews (input w3) = true
  /\ inflight w3 = delete i (inflight w) ++ [Fetching feedUrl' sourceName']
  /\ timers w3 = timers w
  /\ app w3 = app w.
Proof.
  intros Hp Hr w1 w2 w3.
  assert (E2 : w2 = mkWorld (app w)
                      (mkInput true (js "Connecting to " ++ sourceName' ++ js "...")
                               (selectedSourceUrl (input w)))
                      (delete i (inflight w) ++ [Fetching feedUrl' sourceName'])
                      (timers w ++ [mkTimer 3000 ClearFetchStatus])
                      (localStorage w)).
  { subst w2 w1. cbn [step]. rewrite Hp. unfold fetchFeed_resume.
    rewrite Hr. reflexivity. }
  assert (E3 : w3 = mkWorld (app w)
                      (mkInput true [] (selectedSourceUrl (input w)))
                      (delete i (inflight w) ++ [Fetching feedUrl' sourceName'])
                      (timers w)
                      (localStorage w)).
  { subst w3. rewrite E2. cbn [step timers].
    rewrite list_lookup_middle by reflexivity.
    unfold clear_timer. cbn [timers].
    rewrite (delete_middle (timers w) []), app_nil_r. reflexivity. }
  rewrite E2, E3. repeat split.
Qed.

Lemma failure_timer_clears_newer_status_witness :
  let w := step (SelectSource (js "https://36kr.com/feed")) (mounted a_key ∅) in
  let w1 := step (Settle 0 (FeedOutcome (Response false NullBody))) w in
  let w2 := step (RandomSource 0) w1 in
  let w3 := step (TimerFires 0) w2 in
  fetchStatus (input w3) = [] /\ isFetchingNews (input w3) = true.
Proof.
  intros w w1 w2 w3.
  destruct (failure_timer_clears_newer_status w 0%nat
              (js "https://36kr.com/feed") (js "36Kr (商业)")
              (Response false NullBody)
              (js "https://www.ithome.com/rss/") (js "IT之家 (科技)"))
    as (_ & _ & H3 & _ & H5 & _).
  - vm_compute. reflexivity.
  - reflexivity.
  - split; [exact H3 | exact H5].
Defined.

Lemma article_text_not_blank (sourceName : jsstring) (articles : list Article) :
  trim (article_text sourceName articles) <> [].
Proof.
  unfold article_text.
  change (js "【Source: ") with (0x3010 :: js "Source: ").
  cbn [Datatypes.app]. rewrite trim_cons_nonwhite by reflexivity. discriminate.
Qed.

(** X17. After a successful fetch the article text is never
    blank, so with a key configured and no summarization running the
    "generate summary" button is enabled; the toast is gone, no timer has
    been set, the fetch controls are free again, and summary, audio and
    state are untouched. *)
Theorem fetch_success_enables_summary
  (w : World) (i : nat) (feedUrl sourceName : jsstring)
  (articles : list Article) :
  inflight w !! i = Some (Fetching feedUrl sourceName) ->
  articles <> [] ->
  isConfigMissing (app w) = false ->
  appState (app w) <> GENERATING_SUMMARY ->
  let w' := step (Settle i (FeedOutcome (Response true (Articles articles)))) w in
  trim (textInput (app w')) <> []
  /\ summary_button_disabled (app w') = false
  /\ fetchStatus (input w') = []
  /\ toast_shown (input w') = false
  /\ timers w' = timers w
  /\ isFetchingNews (input w') = false
  /\ summary (app w') = summary (app w)
  /\ audioBuffer (app w') = audioBuffer (app w)
  /\ appState (app w') = appState (app w).
Proof.
  intros Hp Hne Hc Hst w'. subst w'. cbn [step]. rewrite Hp.
  unfold fetchFeed_resume. rewrite (try_assemble_nonempty _ _ Hne).
  cbn [with_input with_app end_call app input timers setTextInput textInput
       summary audioBuffer appState set_fetchStatus set_isFetchingNews
       fetchStatus isFetchingNews toast_shown truthy].
  split; [apply article_text_not_blank |].
  split; [| repeat split].
  apply summary_button_enabled. cbn [textInput appState].
  split; [apply article_text_not_blank |]. split; [exact Hst | exact Hc].
Qed.

Lemma fetch_success_enables_summary_witness :
  let w := step (SelectSource (js "https://36kr.com/feed")) (mounted a_key ∅) in
  let w' := step (Settle 0 (FeedOutcome (Response true (Articles
                    [mkArticle Absent Absent])))) w in
  summary_button_disabled (app w) = true
  /\ summary_button_disabled (app w') = false.
Proof.
  intros w w'. split; [reflexivity |].
  refine (proj1 (proj2 (fetch_success_enables_summary w 0%nat
                          (js "https://36kr.com/feed") (js "36Kr (商业)")
                          [mkArticle Absent Absent] _ _ _ _))).
  - vm_compute. reflexivity.
  - discriminate.
  - reflexivity.
  - discriminate.
Defined.

(** ** Loading and saving settings *)

(** X18. When nothing, or the empty string, is stored under
    "app_settings" and a build-time key is present, the settings after
    start-up are the defaults with that key as both the summarization and
    the speech key; the configuration then counts as present. *)
Theorem env_key_fills_both_keys
  (DEFAULT_SETTINGS : AppSettings) (API_KEY : jsstring) (ls : Storage) :
  (getItem (js "app_settings") ls = None
   \/ getItem (js "app_settings") ls = Some []) ->
  API_KEY <> [] ->
  exists s,
    load_settings DEFAULT_SETTINGS API_KEY ls = Some s
    /\ apiKey (llm s) = API_KEY /\ apiKey (tts s) = API_KEY
    /\ model (llm s) = model (llm DEFAULT_SETTINGS)
    /\ model (tts s) = model (tts DEFAULT_SETTINGS)
    /\ language s = language DEFAULT_SETTINGS
    /\ isConfigMissing (initial s) = false.
Proof.
  intros Hs Hk. exists (with_env_key API_KEY DEFAULT_SETTINGS).
  apply truthy_true in Hk.
  assert (He : settings_effect DEFAULT_SETTINGS API_KEY ls
               = to_js (with_env_key API_KEY DEFAULT_SETTINGS)).
  { unfold settings_effect. change app_settings with (js "app_settings").
    destruct Hs as [-> | ->]; cbn [truthy]; rewrite Hk; reflexivity. }
  unfold load_settings. rewrite He, of_js_to_js.
  repeat split. unfold isConfigMissing. cbn. rewrite Hk. reflexivity.
Qed.

Lemma env_key_fills_both_keys_witness :
  load_settings (mkSettings (js "zh-CN") (mkService [] (js "m")) (mkService [] (js "v")))
                (js "KEY") ∅
  = Some (mkSettings (js "zh-CN") (mkService (js "KEY") (js "m"))
                     (mkService (js "KEY") (js "v"))).
Proof.
  destruct (env_key_fills_both_keys
              (mkSettings (js "zh-CN") (mkService [] (js "m")) (mkService [] (js "v")))
              (js "KEY") ∅) as (s & H & _).
  - left. reflexivity.
  - discriminate.
  - vm_compute. reflexivity.
Defined.

(** X19. As soon as a non-empty string is stored under
    "app_settings", the build-time key plays no part; and if that string is
    not JSON, the settings stay the defaults, key or no key. *)
Theorem stored_settings_ignore_env_key
  (DEFAULT_SETTINGS : AppSettings) (API_KEY API_KEY' saved : jsstring)
  (ls : Storage) :
  getItem (js "app_settings") ls = Some saved ->
  saved <> [] ->
  settings_effect DEFAULT_SETTINGS API_KEY ls
  = settings_effect DEFAULT_SETTINGS API_KEY' ls
  /\ (JSON_parse saved = None ->
      settings_effect DEFAULT_SETTINGS API_KEY ls = to_js DEFAULT_SETTINGS
      /\ load_settings DEFAULT_SETTINGS API_KEY ls = Some DEFAULT_SETTINGS).
Proof.
  intros Hs Hne. apply truthy_true in Hne.
  unfold load_settings, settings_effect.
  change app_settings with (js "app_settings"). rewrite Hs, Hne.
  split; [reflexivity |]. intros ->.
  split; [reflexivity | apply of_js_to_js].
Qed.

Lemma stored_settings_ignore_env_key_witness :
  let d := mkSettings (js "en") (mkService [] (js "m")) (mkService [] (js "v")) in
  load_settings d (js "KEY") (setItem (js "app_settings") (js "{oops") ∅) = Some d.
Proof.
  intros d.
  refine (proj2 (proj2 (stored_settings_ignore_env_key d (js "KEY") []
                          (js "{oops")
                          (setItem (js "app_settings") (js "{oops") ∅) _ _) _)).
  - vm_compute. reflexivity.
  - discriminate.
  - vm_compute. reflexivity.
Defined.

(** What [JSON_parse] returns has no key twice. *)
Lemma fresh_replace (k k' : jsstring) (v : json) (m : list (jsstring * json)) :
  fresh k' (obj_replace k v m) = fresh k' m.
Proof.
  induction m as [|[k1 v1] m IH]; simpl; [reflexivity |].
  destruct (str_eqb k1 k); simpl; rewrite ?IH; reflexivity.
Qed.

Lemma distinct_replace (k : jsstring) (v : json) (m : list (jsstring * json)) :
  distinct_keys (obj_replace k v m) = distinct_keys m.
Proof.
  induction m as [|[k1 v1] m IH]; simpl; [reflexivity |].
  destruct (str_eqb k1 k); simpl; [reflexivity |].
  rewrite fresh_replace, IH. reflexivity.
Qed.

Lemma fresh_insert (n : N) (k k' : jsstring) (v : json)
  (m : list (jsstring * json)) :
  fresh k' (insert_index n k v m) = negb (str_eqb k k') && fresh k' m.
Proof.
  induction m as [|[k1 v1] m IH]; simpl; [reflexivity |].
  destruct (array_index k1) as [n'|]; [destruct (n' <? n) |]; simpl;
    rewrite ?IH; try reflexivity.
  destruct (str_eqb k1 k'), (str_eqb k k'); reflexivity.
Qed.

Lemma distinct_insert (n : N) (k : jsstring) (v : json)
  (m : list (jsstring * json)) :
  distinct_keys (insert_index n k v m) = fresh k m && distinct_keys m.
Proof.
  induction m as [|[k1 v1] m IH]; simpl; [reflexivity |].
  destruct (array_index k1) as [n'|]; [destruct (n' <? n) |]; simpl;
    try reflexivity.
  rewrite fresh_insert, IH, (str_eqb_sym k k1).
  destruct (str_eqb k1 k), (fresh k1 m), (fresh k m); reflexivity.
Qed.

Lemma distinct_snoc (k : jsstring) (v : json) (m : list (jsstring * json)) :
  distinct_keys (m ++ [(k, v)]) = fresh k m && distinct_keys m.
Proof.
  induction m as [|[k1 v1] m IH]; simpl; [reflexivity |].
  rewrite fresh_app, IH. simpl. rewrite (str_eqb_sym k k1).
  destruct (str_eqb k1 k), (fresh k1 m), (fresh k m); reflexivity.
Qed.

Lemma distinct_obj_set (k : jsstring) (v : json) (m : list (jsstring * json)) :
  distinct_keys m = true -> distinct_keys (obj_set k v m) = true.
Proof.
  intros Hd. unfold obj_set. destruct (obj_get k m) as [x|] eqn:E.
  - rewrite distinct_replace. exact Hd.
  - apply fresh_obj_get in E. destruct (array_index k) as [n|].
    + rewrite distinct_insert, E, Hd. reflexivity.
    + rewrite distinct_snoc, E, Hd. reflexivity.
Qed.

Lemma parse_members_distinct (fuel : nat) :
  forall (s : jsstring) (acc : list (jsstring * json)) (v : json) (r : jsstring),
    parse_members fuel s acc = Some (v, r) ->
    distinct_keys acc = true ->
    exists o, v = JObject o /\ distinct_keys o = true.
Proof.
  induction fuel as [|f IH]; intros s acc v r H Hd; [discriminate H |].
  cbn [parse_members] in H.
  destruct (skip_ws s) as [|c t]; [discriminate H |].
  destruct (c =? 0x22); [| discriminate H].
  destruct (parse_chars t) as [[k r1]|]; [| discriminate H].
  destruct (skip_ws r1) as [|c1 r2]; [discriminate H |].
  destruct (c1 =? 0x3A); [| discriminate H].
  destruct (parse_value f r2) as [[x r3]|]; [| discriminate H].
  destruct (skip_ws r3) as [|c3 r4]; [discriminate H |].
  destruct (c3 =? 0x2C).
  - apply (IH _ _ _ _ H). apply distinct_obj_set, Hd.
  - destruct (c3 =? 0x7D); [| discriminate H].
    injection H as <- <-. eexists. split; [reflexivity |].
    apply distinct_obj_set, Hd.
Qed.

Lemma parse_elements_array (fuel : nat) :
  forall (s : jsstring) (acc : list json) (v : json) (r : jsstring),
    parse_elements fuel s acc = Some (v, r) -> exists l, v = JArray l.
Proof.
  induction fuel as [|f IH]; intros s acc v r H; [discriminate H |].
  cbn [parse_elements] in H.
  destruct (parse_value f s) as [[x r3]|]; [| discriminate H].
  destruct (skip_ws r3) as [|c3 r4]; [discriminate H |].
  destruct (c3 =? 0x2C).
  - apply (IH _ _ _ _ H).
  - destruct (c3 =? 0x5D); [| discriminate H].
    injection H as <- <-. eexists. reflexivity.
Qed.

Lemma parse_number_number (s : jsstring) (v : json) (r : jsstring) :
  parse_number s = Some (v, r) -> exists n, v = JNumber n.
Proof.
  unfold parse_number. intros H.
  destruct (parse_int _) as [[i s1]|]; [| discriminate H].
  destruct (parse_frac s1) as [[f s2]|]; [| discriminate H].
  destruct (parse_exp s2) as [[e s3]|]; [| discriminate H].
  injection H as <- <-. eexists. reflexivity.
Qed.

Lemma parse_value_distinct (fuel : nat) (s : jsstring)
  (o : list (jsstring * json)) (r : jsstring) :
  parse_value fuel s = Some (JObject o, r) -> distinct_keys o = true.
Proof.
  destruct fuel as [|f]; intros H; [discriminate H |].
  cbn [parse_value] in H.
  destruct (skip_ws s) as [|c t]; [discriminate H |].
  destruct (c =? 0x22).
  { destruct (parse_chars t) as [[str r']|]; discriminate H. }
  destruct (c =? 0x7B).
  { destruct (skip_ws t) as [|c' r']; [discriminate H |].
    destruct (c' =? 0x7D).
    - injection H as <- <-. reflexivity.
    - destruct (parse_members_distinct _ _ _ _ _ H eq_refl) as (o' & E & Hd).
      injection E as ->. exact Hd. }
  destruct (c =? 0x5B).
  { destruct (skip_ws t) as [|c' r']; [discriminate H |].
    destruct (c' =? 0x5D); [discriminate H |].
    destruct (parse_elements_array _ _ _ _ _ H) as (l & E). discriminate E. }
  destruct (startsWith (c :: t) (js "true")); [discriminate H |].
  destruct (startsWith (c :: t) (js "false")); [discriminate H |].
  destruct (startsWith (c :: t) (js "null")); [discriminate H |].
  destruct (parse_number_number _ _ _ H) as (n & E). discriminate E.
Qed.

Lemma JSON_parse_distinct (text : jsstring) (o : list (jsstring * json)) :
  JSON_parse text = Some (JObject o) -> distinct_keys o = true.
Proof.
  unfold JSON_parse. intros H.
  destruct (parse_value _ text) as [[v r]|] eqn:E; [| discriminate H].
  destruct (skip_ws r); [| discriminate H].
  injection H as ->. apply (parse_value_distinct _ _ _ _ E).
Qed.

(** X20. For any text stored that is the JSON of an object, numbers
    and properties the settings do not list included, the settings after
    start-up are an object in which every property of the stored object
    reads as stored, nested objects as a whole, and a property of the
    defaults shows only where the stored object has none of that name: the
    merge is one level deep. With a language stored and neither service,
    the result is the defaults in that language. *)
Theorem stored_object_merges_over_defaults
  (DEFAULT_SETTINGS : AppSettings) (API_KEY saved : jsstring) (ls : Storage)
  (o : list (jsstring * json)) :
  getItem (js "app_settings") ls = Some saved ->
  JSON_parse saved = Some (JObject o) ->
  (exists merged,
     settings_effect DEFAULT_SETTINGS API_KEY ls = JObject merged
     /\ (forall k v, obj_get k o = Some v -> obj_get k merged = Some v)
     /\ (forall k, obj_get k o = None ->
                   obj_get k merged
                   = obj_get k (own_props (to_js DEFAULT_SETTINGS))))
  /\ (forall l, obj_get (js "language") o = Some (JString l) ->
                obj_get (js "llm") o = None ->
                obj_get (js "tts") o = None ->
        load_settings DEFAULT_SETTINGS API_KEY ls
        = Some (mkSettings l (llm DEFAULT_SETTINGS) (tts DEFAULT_SETTINGS))).
Proof.
  intros Hs Hp.
  assert (Hne : truthy saved = true).
  { destruct saved; [vm_compute in Hp; discriminate Hp | reflexivity]. }
  assert (He : settings_effect DEFAULT_SETTINGS API_KEY ls
               = spread2 (to_js DEFAULT_SETTINGS) (JObject o)).
  { unfold settings_effect. change app_settings with (js "app_settings").
    rewrite Hs, Hne, Hp. reflexivity. }
  pose proof (JSON_parse_distinct _ _ Hp) as Hd.
  split.
  - eexists. split; [exact He |]. split.
    + intros k v Hk. cbn [own_props]. rewrite (spread_lookup _ _ _ Hd), Hk.
      reflexivity.
    + intros k Hk. cbn [own_props]. rewrite (spread_lookup _ _ _ Hd), Hk.
      reflexivity.
  - intros l Hl Hllm Htts. unfold load_settings. rewrite He.
    unfold spread2, of_js, string_prop. cbn [own_props].
    rewrite !(spread_lookup _ _ _ Hd), Hl, Hllm, Htts.
    destruct DEFAULT_SETTINGS as [dl [a m] [a' m']]. reflexivity.
Qed.

(** The text stored is [{"language":"zh-CN","speed":1.5}]. *)
Lemma stored_object_merges_over_defaults_witness :
  let d := mkSettings (js "en") (mkService (js "k") (js "m")) (mkService [] (js "v")) in
  let saved := [0x7B; 0x22] ++ js "language" ++ [0x22; 0x3A; 0x22] ++ js "zh-CN"
               ++ [0x22; 0x2C; 0x22] ++ js "speed" ++ [0x22; 0x3A] ++ js "1.5"
               ++ [0x7D] in
  load_settings d [] (setItem (js "app_settings") saved ∅)
  = Some (mkSettings (js "zh-CN") (mkService (js "k") (js "m"))
                     (mkService [] (js "v"))).
Proof.
  intros d saved.
  refine (proj2 (stored_object_merges_over_defaults d [] saved
                   (setItem (js "app_settings") saved ∅)
                   [(js "language", JString (js "zh-CN"));
                    (js "speed", JNumber (js "1.5"))] _ _) (js "zh-CN") _ _ _).
  - vm_compute. reflexivity.
  - vm_compute. reflexivity.
  - reflexivity.
  - reflexivity.
  - reflexivity.
Defined.

(** X21. Saving settings keeps no history: after two saves the
    storage is what the second alone would have left, every other key of
    the storage is untouched, the page holds the second settings, and a
    restart loads them; nothing else on the page changes. *)
Theorem save_settings_last_wins
  (DEFAULT_SETTINGS s1 s2 : AppSettings) (API_KEY : jsstring) (w : World) :
  let w' := handleSaveSettings s2 (handleSaveSettings s1 w) in
  localStorage w' = localStorage (handleSaveSettings s2 w)
  /\ (forall k, k <> js "app_settings" ->
                getItem k (localStorage w') = getItem k (localStorage w))
  /\ settings (app w') = s2
  /\ load_settings DEFAULT_SETTINGS API_KEY (localStorage w') = Some s2
  /\ setSettings (settings (app w)) (app w') = app w
  /\ input w' = input w /\ inflight w' = inflight w /\ timers w' = timers w.
Proof.
  intros w'. subst w'. unfold handleSaveSettings, save_settings, setItem, getItem.
  cbn [localStorage app input inflight timers settings setSettings].
  split; [apply insert_insert_eq |].
  split; [intros k Hk; unfold app_settings;
          rewrite !lookup_insert_ne by (intros E; apply Hk; symmetry; exact E);
          reflexivity |].
  split; [reflexivity |]. split.
  - unfold load_settings, settings_effect, getItem. rewrite lookup_insert_eq.
    rewrite (stringify_truthy _ (to_js_well_formed s2)),
      (JSON_parse_stringify _ (to_js_well_formed s2)).
    rewrite spread2_same_shape. apply of_js_to_js.
  - destruct w as [[] ? ? ? ?]. repeat split.
Qed.
